(** * spotdl pconsole: the interactive album console

    A shallow embedding of [spotdl/console/pconsole.py] and the properties
    of its command loop, of its settings overrides and of the filename
    space replacer.

    Python strings are modelled as Rocq strings whose characters are code
    points below 256; dictionaries as finite maps with string keys;
    exceptions as an error result; the console, the downloader object and
    standard input as an explicit world threaded through a small monad. *)

From Stdlib Require Import Ascii String.
From stdpp Require Import base option list strings gmap.

Local Open Scope string_scope.
Local Open Scope list_scope.

(** ** Python strings *)

Module PyStr.

(** [bool(s)] of a string: non-empty. *)
Definition truthy (s : string) : bool :=
  match s with
  | EmptyString => false
  | String _ _ => true
  end.

(** [str.isspace] on one character with a code point below 256. *)
Definition is_space (c : ascii) : bool :=
  let n := nat_of_ascii c in
  (((9 <=? n) && (n <=? 13)) || ((28 <=? n) && (n <=? 32))
   || (n =? 133) || (n =? 160))%nat.

Fixpoint lstrip (s : string) : string :=
  match s with
  | EmptyString => EmptyString
  | String c s' => if is_space c then lstrip s' else s
  end.

Fixpoint rstrip (s : string) : string :=
  match s with
  | EmptyString => EmptyString
  | String c s' =>
      match rstrip s' with
      | EmptyString => if is_space c then EmptyString else String c EmptyString
      | t => String c t
      end
  end.

(** [s.strip()] *)
Definition strip (s : string) : string := rstrip (lstrip s).

(** [str.lower] on one character with a code point below 256. *)
Definition lower_char (c : ascii) : ascii :=
  let n := nat_of_ascii c in
  if (((65 <=? n) && (n <=? 90))
      || ((192 <=? n) && (n <=? 222) && negb (n =? 215)))%nat
  then ascii_of_nat (n + 32) else c.

Fixpoint map_chars (f : ascii -> ascii) (s : string) : string :=
  match s with
  | EmptyString => EmptyString
  | String c s' => String (f c) (map_chars f s')
  end.

(** [s.lower()] *)
Definition lower (s : string) : string := map_chars lower_char s.

(** [s.replace(old, new)] for one-character [old] and [new]. *)
Definition replace (old new : ascii) (s : string) : string :=
  map_chars (fun c => if Ascii.eqb c old then new else c) s.

Fixpoint starts_with (p s : string) : bool :=
  match p, s with
  | EmptyString, _ => true
  | String _ _, EmptyString => false
  | String a p', String b s' => Ascii.eqb a b && starts_with p' s'
  end.

(** [p in s] *)
Fixpoint contains (p s : string) : bool :=
  starts_with p s ||
  match s with
  | EmptyString => false
  | String _ s' => contains p s'
  end.

(** [s.split(sep)] for a one-character separator: never the empty list. *)
Fixpoint split (sep : ascii) (s : string) : list string :=
  match s with
  | EmptyString => [EmptyString]
  | String c s' =>
      if Ascii.eqb c sep then EmptyString :: split sep s'
      else match split sep s' with
           | [] => [String c EmptyString]
           | p :: ps => String c p :: ps
           end
  end.

(** [sep.join(parts)] *)
Fixpoint join (sep : string) (parts : list string) : string :=
  match parts with
  | [] => EmptyString
  | [p] => p
  | p :: ps => p +:+ sep +:+ join sep ps
  end.

(** [c not in s] for a character [c]. *)
Fixpoint free_of (c : ascii) (s : string) : Prop :=
  match s with
  | EmptyString => True
  | String a s' => a ≠ c ∧ free_of c s'
  end.

End PyStr.

(** ** Exceptions and results *)

Inductive exn : Type :=
| KeyboardInterrupt
| EOFError
| KeyError (key : string)
| IndexError
| TypeError
| UnboundLocalError
| CollaboratorError (what : string).

Inductive res (A : Type) : Type :=
| Ok (a : A)
| Raise (e : exn).
Arguments Ok {A} a.
Arguments Raise {A} e.

Definition res_bind {A B} (r : res A) (k : A -> res B) : res B :=
  match r with
  | Ok a => k a
  | Raise e => Raise e
  end.

(** ** The space replacer (pconsole.py, lines 44-51) *)

Definition space_replacer (filename : string) : res string :=
  if negb (PyStr.truthy filename) then Ok filename
  else
    let parts := PyStr.split "/" filename in
    (* parts[-1] = parts[-1].replace(' ', '-'); IndexError on an empty list *)
    match last parts with
    | None => Raise IndexError
    | Some final =>
        Ok (PyStr.join "/"
              (<[pred (length parts) := PyStr.replace " " "-" final]> parts))
    end.

(** ** Python values held by the settings dictionary *)

(** Functions stored as values: the only one this module creates. *)
Inductive func : Type :=
| SpaceReplacer.

Inductive value : Type :=
| VNone
| VBool (b : bool)
| VInt (n : Z)
| VStr (s : string)
| VList (l : list string)
| VFunc (f : func).

(** [bool(v)], as used by [if v:]. *)
Definition truthy (v : value) : bool :=
  match v with
  | VNone => false
  | VBool b => b
  | VInt n => negb (n =? 0)%Z
  | VStr s => PyStr.truthy s
  | VList l => match l with [] => false | _ :: _ => true end
  | VFunc _ => true
  end.

(** [f(arg)] for a value [f]: calling anything but a function is a TypeError. *)
Definition call_value (f : value) (arg : string) : res string :=
  match f with
  | VFunc SpaceReplacer => space_replacer arg
  | _ => Raise TypeError
  end.

(** ** The downloader object, the console and standard input *)

(** What [downloader.download_song_to_file] holds: the downloader's own
    method, or [download_song_to_file_wrapper] (lines 127-132) closed over
    the method it replaced. *)
Inductive method : Type :=
| OriginalMethod
| WrapperMethod (original_download_song_to_file : method).

(** One [sys.stdin.readline()]: a line of text as typed, newline included,
    or Ctrl+C while waiting.  When the list is exhausted the stream is at
    end-of-file, and stays there. *)
Inductive stdin_event : Type :=
| Line (text : string)
| Interrupt.

Inductive ctl : Type :=
| Continue
| Break.

(** The collaborators, which are not part of this module.  They return or
    raise, deterministically in their arguments, and have no access to the
    settings dictionary.

    [download_multiple_songs] is a script: it returns, raises, or calls
    [self.download_song_to_file(song, file_path)] and goes on from the
    outcome of that call. *)
Inductive batch (song : Type) : Type :=
| BatchReturn (v : value)
| BatchRaise (e : exn)
| BatchCall (s : song) (file_path : string) (k : res value -> batch song).
Arguments BatchReturn {song} v.
Arguments BatchRaise {song} e.
Arguments BatchCall {song} s file_path k.

Class Collaborators : Type := {
  song : Type;
  (** [str(v)] of a value that is not a string *)
  py_repr : value -> string;
  (** [spotdl.utils.search.get_simple_songs] *)
  get_simple_songs :
    list string -> value -> value -> value -> value -> value -> res (list song);
  (** [Downloader.download_multiple_songs] *)
  download_multiple_songs : list song -> batch song;
  (** [Downloader.download_song_to_file], the method of the class *)
  original_download_song_to_file : song -> string -> res value;
}.

Declare Scope py_scope.
Delimit Scope py_scope with py.

Section World.
Context `{Collaborators}.

(** What the session does that can be observed from outside. *)
Inductive event : Type :=
| StdoutWrite (s : string)
| StdoutFlush
| PrintLine (s : string)
| LogInfo (s : string)
| LogError (s : string)
| Resolve (urls : list string)
    (use_ytm_data playlist_numbering albums_to_ignore album_type
       playlist_retain_track_cover : value)
| DownloadMany (songs : list song)
| DownloadOne (s : song) (file_path : string).

Record world : Type := World {
  settings : gmap string value;              (* downloader.settings *)
  download_song_to_file : method;            (* downloader.download_song_to_file *)
  stdin : list stdin_event;
  trace : list event;
}.

Definition M (A : Type) : Type := world -> res A * world.

Definition ret {A} (a : A) : M A := fun w => (Ok a, w).

Definition raise {A} (e : exn) : M A := fun w => (Raise e, w).

Definition bind {A B} (c : M A) (k : A -> M B) : M B :=
  fun w =>
    match c w with
    | (Ok a, w') => k a w'
    | (Raise e, w') => (Raise e, w')
    end.

Definition lift {A} (r : res A) : M A := fun w => (r, w).

End World.

Notation "'let!' x ':=' c 'in' k" := (bind c (fun x => k))
  (at level 10, x name, c at level 100, k at level 200) : py_scope.
Notation "c ;; k" := (bind c (fun _ => k))
  (at level 100, k at level 200, right associativity) : py_scope.
Local Open Scope py_scope.

Section Primitives.
Context `{Collaborators}.

Definition when (b : bool) (c : M unit) : M unit :=
  if b then c else ret tt.

Definition emit (e : event) : M unit :=
  fun w => (Ok tt, World (settings w) (download_song_to_file w) (stdin w)
                         (trace w ++ [e])).

(** [downloader.settings.get(key, default)] *)
Definition settings_get (key : string) (dflt : value) : M value :=
  fun w => (Ok (default dflt (settings w !! key)), w).

(** [downloader.settings[key]] *)
Definition settings_item (key : string) : M value :=
  fun w =>
    match settings w !! key with
    | Some v => (Ok v, w)
    | None => (Raise (KeyError key), w)
    end.

(** [key in downloader.settings] *)
Definition settings_contains (key : string) : M bool :=
  fun w => (Ok (bool_decide (is_Some (settings w !! key))), w).

(** [downloader.settings[key] = v] *)
Definition settings_set (key : string) (v : value) : M unit :=
  fun w => (Ok tt, World (<[key := v]> (settings w)) (download_song_to_file w)
                         (stdin w) (trace w)).

(** [del downloader.settings[key]] *)
Definition settings_del (key : string) : M unit :=
  fun w =>
    match settings w !! key with
    | Some _ => (Ok tt, World (delete key (settings w)) (download_song_to_file w)
                              (stdin w) (trace w))
    | None => (Raise (KeyError key), w)
    end.

Definition with_method (m : method) (w : world) : world :=
  World (settings w) m (stdin w) (trace w).

(** [downloader.download_song_to_file] read as a value *)
Definition get_method : M method :=
  fun w => (Ok (download_song_to_file w), w).

(** [downloader.download_song_to_file = m] *)
Definition set_method (m : method) : M unit :=
  fun w => (Ok tt, with_method m w).

(** [sys.stdin.readline()]: the next line; at end-of-file the empty
    string, as [io.TextIOBase.readline] has it (unlike [input()], it does
    not raise EOFError); KeyboardInterrupt when the user interrupts the
    read. *)
Definition readline : M string :=
  fun w =>
    match stdin w with
    | [] => (Ok EmptyString, w)
    | Line text :: rest =>
        (Ok text, World (settings w) (download_song_to_file w) rest (trace w))
    | Interrupt :: rest =>
        (Raise KeyboardInterrupt,
         World (settings w) (download_song_to_file w) rest (trace w))
    end.

(** [str(v)], as an f-string formats a value. *)
Definition py_str (v : value) : string :=
  match v with
  | VStr s => s
  | _ => py_repr v
  end.

End Primitives.

(** ** pconsole (pconsole.py, lines 17-155) *)

Definition nl : string := String "010" EmptyString.

Definition structured_template : string := "{artist}/{album}/{title}".

(** The local variables of [pconsole] that the loop and the teardown read. *)
Record locals : Type := Locals {
  use_artist_album_structure : value;
  replace_spaces : value;
  original_output : value;
}.

Section Console.
Context `{Collaborators}.

Definition print_line (s : string) : M unit := emit (PrintLine s).

(** Lines 127-132: the wrapper, given what calling the method it replaced
    does.  It reads the settings at the time of the call. *)
Definition download_song_to_file_wrapper
    (original_download_song_to_file : song -> string -> M value)
    (s : song) (file_path : string) : M value :=
  let! installed := settings_contains "space_replacer" in
  let! file_path :=
    (if PyStr.truthy file_path && installed
     then let! f := settings_item "space_replacer" in
          lift (call_value f file_path)
     else ret file_path) in
  original_download_song_to_file s file_path.

(** Calling [downloader.download_song_to_file(song, file_path)] when the
    attribute holds [m]. *)
Fixpoint call_method (m : method) (s : song) (file_path : string) : M value :=
  match m with
  | OriginalMethod =>
      emit (DownloadOne s file_path) ;;
      lift (original_download_song_to_file s file_path)
  | WrapperMethod original =>
      download_song_to_file_wrapper (call_method original) s file_path
  end.

(** Running [downloader.download_multiple_songs(songs)]: every call it
    makes goes through the attribute as it is at that moment. *)
Fixpoint run_batch (b : batch song) : M value :=
  match b with
  | BatchReturn v => ret v
  | BatchRaise e => raise e
  | BatchCall s file_path k =>
      fun w =>
        let '(r, w1) := (let! m := get_method in call_method m s file_path) w in
        run_batch (k r) w1
  end.

(** Lines 29-72: reading the flags, the overrides, the banner. *)
Definition setup : M locals :=
  let! use_artist_album_structure := settings_get "structured" (VBool false) in
  let! replace_spaces := settings_get "replace_spaces" (VBool false) in
  let! original_output := settings_item "output" in
  when (truthy use_artist_album_structure)
    (settings_set "output" (VStr structured_template) ;;
     emit (LogInfo "Using artist/album folder structure for downloads")) ;;
  when (truthy replace_spaces)
    (settings_set "space_replacer" (VFunc SpaceReplacer) ;;
     emit (LogInfo "Replacing spaces with hyphens in filenames")) ;;
  print_line "Welcome to spotDL pconsole. Enter Spotify URLs to download (Ctrl+D to exit)." ;;
  print_line "Currently supporting album links only." ;;
  print_line "Type 'help' to see available commands." ;;
  let options :=
    (if truthy use_artist_album_structure
     then ["-s (artist/album structure)"] else [])
    ++ (if truthy replace_spaces then ["-r (replace spaces)"] else []) in
  when (match options with [] => false | _ :: _ => true end)
    (print_line ("Active options: " +:+ PyStr.join ", " options)) ;;
  ret (Locals use_artist_album_structure replace_spaces original_output).

(** Lines 74-86. *)
Definition show_help (l : locals) : M unit :=
  print_line (nl +:+ "Available commands:") ;;
  print_line "  help             Show this help message" ;;
  print_line "  exit, quit       Exit pconsole" ;;
  print_line "  <spotify-url>    Download from the given Spotify album URL" ;;
  print_line (nl +:+ "Current settings:") ;;
  print_line ("  Output folder structure: "
              +:+ (if truthy (use_artist_album_structure l)
                   then "artist/album" else "default")) ;;
  print_line ("  Space replacement: "
              +:+ (if truthy (replace_spaces l) then "hyphens" else "none")) ;;
  let! format := settings_get "format" (VStr "mp3") in
  print_line ("  Output format: " +:+ py_str format) ;;
  print_line (nl +:+ "Usage examples:") ;;
  print_line "  spotdl pconsole -s     # Use artist/album folder structure" ;;
  print_line "  spotdl pconsole -r     # Replace spaces with hyphens" ;;
  print_line "  spotdl pconsole -sr    # Use both options together".

(** Lines 110-142: the branch taken for an album link. *)
Definition process_album (l : locals) (url : string) : M ctl :=
  emit (LogInfo ("Processing album: " +:+ url)) ;;
  let! use_ytm_data := settings_item "ytm_data" in
  let! playlist_numbering := settings_item "playlist_numbering" in
  let! albums_to_ignore := settings_item "ignore_albums" in
  let! album_type := settings_item "album_type" in
  let! playlist_retain_track_cover := settings_item "playlist_retain_track_cover" in
  emit (Resolve [url] use_ytm_data playlist_numbering albums_to_ignore
          album_type playlist_retain_track_cover) ;;
  let! songs := lift (get_simple_songs [url] use_ytm_data playlist_numbering
                        albums_to_ignore album_type
                        playlist_retain_track_cover) in
  (* the local original_download_song_to_file is bound only under -r *)
  let! saved :=
    (if truthy (replace_spaces l)
     then let! original := get_method in
          set_method (WrapperMethod original) ;;
          ret (Some original)
     else ret None) in
  emit (DownloadMany songs) ;;
  run_batch (download_multiple_songs songs) ;;
  (if truthy (replace_spaces l)
   then match saved with
        | Some original => set_method original
        | None => raise UnboundLocalError
        end
   else ret tt) ;;
  ret Continue.

(** [url.lower() in ["exit", "quit"]] *)
Definition is_exit_command (url : string) : bool :=
  bool_decide (PyStr.lower url ∈ ["exit"; "quit"]).

(** [url.lower() == "help"] *)
Definition is_help_command (url : string) : bool :=
  bool_decide (PyStr.lower url = "help").

(** ["album" in url and "open.spotify.com" in url] *)
Definition is_album_link (url : string) : bool :=
  PyStr.contains "album" url && PyStr.contains "open.spotify.com" url.

(** Lines 93-144: what a turn does with the line it has read. *)
Definition handle_line (l : locals) (line : string) : M ctl :=
  let url := PyStr.strip line in
  if negb (PyStr.truthy url) then ret Continue
  else
    print_line ("Input: " +:+ url) ;;
    if is_exit_command url then ret Break
    else if is_help_command url then show_help l ;; ret Continue
    else if is_album_link url then process_album l url
    else emit (LogError "Currently only supporting Spotify album links") ;;
         ret Continue.

(** Lines 90-144: one turn of [while True]. *)
Definition loop_body (l : locals) : M ctl :=
  emit (StdoutWrite "> ") ;;
  emit StdoutFlush ;;
  let! line := readline in
  handle_line l line.

(** [while True: body], with a bound on the number of turns: [None] when
    the loop is still running after [fuel] turns. *)
Fixpoint while_true (fuel : nat) (body : M ctl) (w : world)
  : option (res unit * world) :=
  match fuel with
  | O => None
  | S fuel' =>
      match body w with
      | (Ok Continue, w1) => while_true fuel' body w1
      | (Ok Break, w1) => Some (Ok tt, w1)
      | (Raise e, w1) => Some (Raise e, w1)
      end
  end.

(** Lines 146-147: [except (KeyboardInterrupt, EOFError)]. *)
Definition handle_interrupt (r : res unit) : M unit :=
  match r with
  | Raise KeyboardInterrupt | Raise EOFError =>
      print_line (nl +:+ "Exiting pconsole mode.")
  | _ => lift r
  end.

(** Lines 148-155: [finally]. *)
Definition teardown (l : locals) : M unit :=
  when (truthy (use_artist_album_structure l))
    (settings_set "output" (original_output l)) ;;
  let! installed := settings_contains "space_replacer" in
  when (truthy (replace_spaces l) && installed)
    (settings_del "space_replacer").

(** [try: loop / except: farewell / finally: teardown]: the teardown runs
    whatever the loop and the handler did, and what they raised goes on
    to the caller after it. *)
Definition session (fuel : nat) (l : locals) (w : world)
  : option (res unit * world) :=
  match while_true fuel (loop_body l) w with
  | None => None
  | Some (r, w1) =>
      let '(r1, w2) := handle_interrupt r w1 in
      match teardown l w2 with
      | (Ok _, w3) => Some (r1, w3)
      | (Raise e, w3) => Some (Raise e, w3)
      end
  end.

(** [pconsole(query, downloader)]; [query] is ignored. *)
Definition pconsole (query : list string) (fuel : nat) (w : world)
  : option (res unit * world) :=
  match setup w with
  | (Ok l, w1) => session fuel l w1
  | (Raise e, w1) => Some (Raise e, w1)
  end.

End Console.

(** ** Vocabulary of the statements *)

Section Vocabulary.
Context `{Collaborators}.

(** A computation whose every run relates the world it starts in to the
    world it ends in by [R]. *)
Definition preserves (R : world → world → Prop) {A} (c : M A) : Prop :=
  ∀ w r w1, c w = (r, w1) → R w w1.

Definition same_settings (w w1 : world) : Prop := settings w1 = settings w.

(** The trace only grows. *)
Definition extends_trace (w w1 : world) : Prop :=
  ∃ evs, trace w1 = trace w ++ evs.

Definition is_download_one (e : event) : Prop :=
  match e with
  | DownloadOne _ _ => True
  | _ => False
  end.

(** Nothing changes but the trace, which grows by calls of the
    downloader's own single-song method. *)
Definition only_downloads (w w1 : world) : Prop :=
  settings w1 = settings w
  ∧ download_song_to_file w1 = download_song_to_file w
  ∧ stdin w1 = stdin w
  ∧ ∃ evs, trace w1 = trace w ++ evs ∧ Forall is_download_one evs.

(** The world [w] after the events [evs]. *)
Definition after (evs : list event) (w : world) : world :=
  World (settings w) (download_song_to_file w) (stdin w) (trace w ++ evs).

(** The world once the prompt is written and a line is taken from the
    input, [rest] being what is left to read. *)
Definition prompted (rest : list stdin_event) (w : world) : world :=
  World (settings w) (download_song_to_file w) rest
        (trace w ++ [StdoutWrite "> "; StdoutFlush]).

(** The flag a session reads under [key], with [False] when it is absent. *)
Definition flag (w : world) (key : string) : value :=
  default (VBool false) (settings w !! key).

(** The settings after the overrides of lines 37-54. *)
Definition overridden (structured replace : value)
    (s : gmap string value) : gmap string value :=
  let s1 := if truthy structured
            then <["output" := VStr structured_template]> s else s in
  if truthy replace then <["space_replacer" := VFunc SpaceReplacer]> s1 else s1.

(** The settings after the teardown of lines 148-155. *)
Definition restored (l : locals) (s : gmap string value) : gmap string value :=
  let s1 := if truthy (use_artist_album_structure l)
            then <["output" := original_output l]> s else s in
  if truthy (replace_spaces l) then delete "space_replacer" s1 else s1.

(** The path the space replacer makes of [file_path]. *)
Definition hyphenated (file_path : string) : string :=
  match space_replacer file_path with
  | Ok p => p
  | Raise _ => file_path
  end.

(** The batch as the specification describes it under space replacement:
    every single-song call the batch makes is handed to [entry], and the
    batch goes on from the outcome. *)
Fixpoint run_batch_via (entry : song → string → M value) (b : batch song)
  : M value :=
  match b with
  | BatchReturn v => ret v
  | BatchRaise e => raise e
  | BatchCall s file_path k =>
      fun w => let '(r, w1) := entry s file_path w in run_batch_via entry (k r) w1
  end.

(** The help block of lines 75-86 as lines of text, for the folder mode,
    the space mode and the format shown. *)
Definition help_lines (folders spaces format : string) : list string :=
  [ nl +:+ "Available commands:";
    "  help             Show this help message";
    "  exit, quit       Exit pconsole";
    "  <spotify-url>    Download from the given Spotify album URL";
    nl +:+ "Current settings:";
    "  Output folder structure: " +:+ folders;
    "  Space replacement: " +:+ spaces;
    "  Output format: " +:+ format;
    nl +:+ "Usage examples:";
    "  spotdl pconsole -s     # Use artist/album folder structure";
    "  spotdl pconsole -r     # Replace spaces with hyphens";
    "  spotdl pconsole -sr    # Use both options together" ].

End Vocabulary.

(** ** Collaborators and settings for the examples *)

Definition demo_repr (v : value) : string :=
  match v with
  | VNone => "None"
  | VBool true => "True"
  | VBool false => "False"
  | _ => "<value>"
  end.

(** A batch that downloads every song to [Artist Name/<song>.mp3] and gives
    up at the first failure. *)
Fixpoint demo_batch (songs : list string) : batch string :=
  match songs with
  | [] => BatchReturn VNone
  | s :: rest =>
      BatchCall s ("Artist Name/" +:+ s +:+ ".mp3")
        (fun r => match r with
                  | Ok _ => demo_batch rest
                  | Raise e => BatchRaise e
                  end)
  end.

(** Songs are their titles; every album has the same two songs, except one
    album that cannot be resolved. *)
Definition demo_collaborators : Collaborators := {|
  song := string;
  py_repr := demo_repr;
  get_simple_songs := fun urls _ _ _ _ _ =>
    if bool_decide (urls = ["https://open.spotify.com/album/gone"])
    then Raise (CollaboratorError "album not found")
    else Ok ["My Song"; "Other Song"];
  download_multiple_songs := demo_batch;
  original_download_song_to_file := fun _ _ => Ok VNone;
|}.

Definition demo_settings : gmap string value :=
  list_to_map
    [("output", VStr "{artists} - {title}.{output-ext}");
     ("format", VStr "flac");
     ("ytm_data", VBool false);
     ("playlist_numbering", VBool false);
     ("ignore_albums", VNone);
     ("album_type", VNone);
     ("playlist_retain_track_cover", VBool false)].

Definition demo_world (s : gmap string value) (input : list stdin_event)
  : @world demo_collaborators :=
  World s OriginalMethod input [].

(** ** Further vocabulary *)

(** The settings the download branch reads for the resolver, in the order
    of lines 115-119. *)
Definition resolver_settings : list string :=
  ["ytm_data"; "playlist_numbering"; "ignore_albums"; "album_type";
   "playlist_retain_track_cover"].

(** An input event that ends the loop when it is read: an interrupt, or a
    line that is [exit] or [quit] once stripped and lowered. *)
Definition stops (ev : stdin_event) : bool :=
  match ev with
  | Interrupt => true
  | Line text => is_exit_command (PyStr.strip text)
  end.

(** An input event after which the loop just goes on: a line that is
    neither [exit]/[quit] nor taken for an album link. *)
Definition idle (ev : stdin_event) : bool :=
  match ev with
  | Interrupt => false
  | Line text =>
      negb (is_exit_command (PyStr.strip text))
      && negb (is_album_link (PyStr.strip text))
  end.

Section FurtherVocabulary.
Context `{Collaborators}.

(** An event of the console itself: output or log, no collaborator call. *)
Definition is_console_event (e : event) : Prop :=
  match e with
  | Resolve _ _ _ _ _ _ | DownloadMany _ | DownloadOne _ _ => False
  | _ => True
  end.

Definition same_stdin (w w1 : world) : Prop := stdin w1 = stdin w.

End FurtherVocabulary.

(** Collaborators as in the other examples, but the download of
    [Other Song] fails. *)
Definition failing_collaborators : Collaborators := {|
  song := string;
  py_repr := demo_repr;
  get_simple_songs := fun _ _ _ _ _ _ => Ok ["My Song"; "Other Song"];
  download_multiple_songs := demo_batch;
  original_download_song_to_file := fun s _ =>
    if bool_decide (s = "Other Song")
    then Raise (CollaboratorError "download failed")
    else Ok VNone;
|}.

Definition failing_world (s : gmap string value) (input : list stdin_event)
  : @world failing_collaborators :=
  World s OriginalMethod input [].

(** ** Facts about split, join and replace *)

Section StringFacts.
Import PyStr.

Lemma split_not_nil sep s : split sep s ≠ [].
Proof.
  destruct s as [|c s]; simpl; [done|].
  destruct (Ascii.eqb c sep); [done|].
  destruct (split sep s); done.
Qed.

Lemma split_snoc sep s : ∃ dirs final, split sep s = dirs ++ [final].
Proof.
  destruct (split sep s) as [|p ps] eqn:E using rev_ind.
  - by apply split_not_nil in E.
  - eauto.
Qed.

Lemma split_free sep s : Forall (free_of sep) (split sep s).
Proof.
  induction s as [|c s IH]; simpl.
  - by repeat constructor.
  - destruct (Ascii.eqb_spec c sep) as [->|Hne].
    + by constructor.
    + destruct (split sep s) as [|p ps]; [by repeat constructor|].
      inversion IH; subst. by constructor.
Qed.

Lemma join_cons2 sep p q qs :
  join sep (p :: q :: qs) = p +:+ sep +:+ join sep (q :: qs).
Proof. done. Qed.

Lemma join_cons_char sep c p ps :
  join sep (String c p :: ps) = String c (join sep (p :: ps)).
Proof. by destruct ps. Qed.

Lemma join_split sep s : join (String sep EmptyString) (split sep s) = s.
Proof.
  induction s as [|c s IH]; [done|].
  cbn [split].
  destruct (split sep s) as [|p ps] eqn:E; [by apply split_not_nil in E|].
  destruct (Ascii.eqb_spec c sep) as [->|Hne].
  - rewrite join_cons2, IH. done.
  - by rewrite join_cons_char, IH.
Qed.

Lemma split_free_part sep p : free_of sep p → split sep p = [p].
Proof.
  induction p as [|c p IH]; simpl; [done|].
  intros [Hne Hp]. destruct (Ascii.eqb_spec c sep); [done|].
  by rewrite IH.
Qed.

Lemma split_app_sep sep p s :
  free_of sep p →
  split sep (p +:+ String sep s) = p :: split sep s.
Proof.
  induction p as [|c p IH]; simpl.
  - intros _. by rewrite Ascii.eqb_refl.
  - intros [Hne Hp]. destruct (Ascii.eqb_spec c sep); [done|].
    by rewrite IH.
Qed.

Lemma split_join sep parts :
  parts ≠ [] → Forall (free_of sep) parts →
  split sep (join (String sep EmptyString) parts) = parts.
Proof.
  induction parts as [|p ps IH]; [done|].
  intros _ Hall. inversion Hall as [|? ? Hp Hps]; subst.
  destruct ps as [|q qs].
  - simpl. by apply split_free_part.
  - rewrite join_cons2.
    change (split sep (p +:+ String sep (join (String sep EmptyString) (q :: qs)))
            = p :: q :: qs).
    rewrite split_app_sep by done. by rewrite IH.
Qed.

Lemma replace_free old new sep s :
  new ≠ sep → free_of sep s → free_of sep (replace old new s).
Proof.
  intros Hnew. unfold replace.
  induction s as [|c s IH]; cbn [map_chars free_of]; [done|].
  intros [Hc Hs]. split; [|by apply IH].
  by destruct (Ascii.eqb c old).
Qed.

Lemma replace_idemp old new s :
  new ≠ old → replace old new (replace old new s) = replace old new s.
Proof.
  intros Hne. unfold replace.
  induction s as [|c s IH]; cbn [map_chars]; [done|].
  rewrite IH. f_equal.
  destruct (Ascii.eqb_spec c old) as [->|Hc].
  - by destruct (Ascii.eqb_spec new old).
  - by destruct (Ascii.eqb_spec c old).
Qed.

Lemma insert_last {A} (dirs : list A) (x y : A) :
  <[pred (length (dirs ++ [x])) := y]> (dirs ++ [x]) = dirs ++ [y].
Proof.
  rewrite length_app. simpl.
  replace (pred (length dirs + 1)) with (length dirs + 0) by lia.
  by rewrite insert_app_r.
Qed.

Lemma last_snoc_some {A} (dirs : list A) (x : A) : last (dirs ++ [x]) = Some x.
Proof. apply last_snoc. Qed.

(** What the replacer computes on a non-empty path whose segments are
    [dirs ++ [final]]. *)
Lemma space_replacer_segments p dirs final :
  truthy p = true →
  split "/" p = dirs ++ [final] →
  space_replacer p = Ok (join "/" (dirs ++ [replace " " "-" final])).
Proof.
  intros Hp Hs. unfold space_replacer.
  rewrite Hp. cbn [negb]. cbv zeta.
  by rewrite Hs, last_snoc_some, insert_last.
Qed.

Lemma truthy_true_iff p : truthy p = true ↔ p ≠ EmptyString.
Proof. by destruct p. Qed.

Lemma segments_free_after_replace dirs final :
  Forall (free_of "/") (dirs ++ [final]) →
  Forall (free_of "/") (dirs ++ [replace " " "-" final]).
Proof.
  rewrite !Forall_app, !Forall_singleton. intros [Hd Hf]. split; [done|].
  by apply replace_free.
Qed.

End StringFacts.

(** ** Properties of the space replacer *)

Example space_replacer_album_track :
  space_replacer "Artist Name/My Song.mp3" = Ok "Artist Name/My-Song.mp3".
Proof. reflexivity. Qed.

Example space_replacer_nested :
  space_replacer "My Music/Artist Name/The Album/A B C.mp3"
  = Ok "My Music/Artist Name/The Album/A-B-C.mp3".
Proof. reflexivity. Qed.

Example space_replacer_trailing_slash :
  space_replacer "Artist Name/My Song/" = Ok "Artist Name/My Song/".
Proof. reflexivity. Qed.

(** C10: the replacer always returns, and it is idempotent: applied to its
    own result it returns that result again. *)
Theorem space_replacer_idempotent (p : string) :
  ∃ q, space_replacer p = Ok q ∧
       space_replacer q = Ok q ∧
       res_bind (space_replacer p) space_replacer = space_replacer p.
Proof.
  destruct (PyStr.truthy p) eqn:Hp.
  - destruct (split_snoc "/" p) as (dirs & final & Hs).
    pose proof (space_replacer_segments p dirs final Hp Hs) as Hq.
    set (q := PyStr.join "/" (dirs ++ [PyStr.replace " " "-" final])) in *.
    assert (Hqq : space_replacer q = Ok q).
    { destruct (PyStr.truthy q) eqn:Hqt.
      - rewrite (space_replacer_segments q dirs (PyStr.replace " " "-" final) Hqt).
        + by rewrite replace_idemp.
        + apply split_join; [by destruct dirs|].
          apply segments_free_after_replace. rewrite <- Hs. apply split_free.
      - unfold space_replacer. by rewrite Hqt. }
    exists q. rewrite Hq. by cbn [res_bind].
  - exists p. unfold space_replacer. rewrite Hp. cbn [negb res_bind].
    unfold space_replacer. by rewrite Hp.
Qed.

(** ** What the loop leaves alone *)

Ltac run :=
  cbv [bind ret raise lift emit when print_line settings_get settings_item
       settings_contains settings_set settings_del get_method set_method
       with_method readline];
  cbn [settings download_song_to_file stdin trace].

Section Combinators.
Context `{Collaborators}.
Variable R : world → world → Prop.
Hypothesis R_refl : ∀ w, R w w.
Hypothesis R_trans : ∀ w1 w2 w3, R w1 w2 → R w2 w3 → R w1 w3.

Lemma preserves_ret {A} (a : A) : preserves R (ret a).
Proof. intros w r w1 [= <- <-]. done. Qed.

Lemma preserves_raise {A} e : preserves R (raise (A := A) e).
Proof. intros w r w1 [= <- <-]. done. Qed.

Lemma preserves_lift {A} (x : res A) : preserves R (lift x).
Proof. intros w r w1 [= <- <-]. done. Qed.

Lemma preserves_bind {A B} (c : M A) (k : A → M B) :
  preserves R c → (∀ a, preserves R (k a)) → preserves R (bind c k).
Proof.
  intros Hc Hk w r w1. unfold bind.
  destruct (c w) as [[a|e] w0] eqn:E.
  - intros E1. eapply R_trans; [by eapply Hc|by eapply Hk].
  - intros [= <- <-]. by eapply Hc.
Qed.

Lemma preserves_if {A} (b : bool) (c1 c2 : M A) :
  preserves R c1 → preserves R c2 → preserves R (if b then c1 else c2).
Proof. by destruct b. Qed.

Lemma preserves_settings_item k : preserves R (settings_item k).
Proof.
  intros w r w1. unfold settings_item.
  destruct (settings w !! k); intros [= <- <-]; done.
Qed.

Lemma preserves_settings_get k d : preserves R (settings_get k d).
Proof. intros w r w1 [= <- <-]. done. Qed.

Lemma preserves_settings_contains k : preserves R (settings_contains k).
Proof. intros w r w1 [= <- <-]. done. Qed.

Lemma preserves_get_method : preserves R get_method.
Proof. intros w r w1 [= <- <-]. done. Qed.

Create HintDb frame.
Hint Resolve preserves_ret preserves_raise preserves_lift
  preserves_settings_item preserves_settings_get preserves_settings_contains
  preserves_get_method : frame.

Ltac frame :=
  repeat first
    [ solve [eauto with frame]
    | apply preserves_bind; [|intros ?]
    | apply preserves_if
    | progress (unfold print_line, when) ].

(** The batch: all it does to the world is to call the downloader's own
    single-song method. *)
Section Batch.
Hypothesis R_download :
  ∀ s p, preserves R (emit (DownloadOne s p)).

Lemma preserves_call_method m s p : preserves R (call_method m s p).
Proof using R_refl R_trans R_download.
  revert p. induction m as [|m IH]; intros p; cbn [call_method];
    unfold download_song_to_file_wrapper; frame.
Qed.

Hint Resolve preserves_call_method : frame.

Lemma preserves_run_batch b : preserves R (run_batch b).
Proof using R_refl R_trans R_download.
  induction b as [v|e|s p k IH]; cbn [run_batch]; [frame..|].
  intros w r w1.
  destruct (bind get_method (λ m, call_method m s p) w) as [r0 w0] eqn:E.
  intros E1. eapply R_trans; [|by eapply IH].
  revert E. apply preserves_bind; frame.
Qed.
End Batch.

(** A turn of the loop: it also prints, logs, reads a line and swaps the
    method attribute. *)
Section Turn.
Hypothesis R_emit : ∀ e, preserves R (emit e).
Hypothesis R_set_method : ∀ m, preserves R (set_method m).
Hypothesis R_readline : preserves R readline.

Hint Resolve R_emit R_set_method R_readline preserves_run_batch : frame.

Lemma preserves_show_help l : preserves R (show_help l).
Proof using R_refl R_trans R_emit. unfold show_help. frame. Qed.

Lemma preserves_process_album l url : preserves R (process_album l url).
Proof using R_refl R_trans R_emit R_set_method.
  unfold process_album. frame.
  match goal with |- preserves _ (match ?o with _ => _ end) => destruct o end;
    frame.
Qed.

Hint Resolve preserves_show_help preserves_process_album : frame.

Lemma preserves_handle_line l line : preserves R (handle_line l line).
Proof using R_refl R_trans R_emit R_set_method.
  unfold handle_line. cbv zeta. frame.
Qed.

Hint Resolve preserves_handle_line : frame.

Lemma preserves_loop_body l : preserves R (loop_body l).
Proof using R_refl R_trans R_emit R_set_method R_readline.
  unfold loop_body. frame.
Qed.

Lemma preserves_while_true (body : M ctl) fuel w r w1 :
  preserves R body →
  while_true fuel body w = Some (r, w1) → R w w1.
Proof using R_refl R_trans.
  intros Hb. revert w. induction fuel as [|fuel IH]; intros w; [done|].
  cbn [while_true]. destruct (body w) as [[[]|e] w0] eqn:E.
  - intros E1. eapply R_trans; [by eapply Hb|by apply IH].
  - intros [= <- <-]. by eapply Hb.
  - intros [= <- <-]. by eapply Hb.
Qed.

Lemma preserves_handle_interrupt r : preserves R (handle_interrupt r).
Proof using R_refl R_emit.
  destruct r as [|[]]; cbn [handle_interrupt]; frame.
Qed.
End Turn.

End Combinators.

Section Frames.
Context `{Collaborators}.

Lemma same_settings_refl w : same_settings w w.
Proof. done. Qed.

Lemma same_settings_trans w1 w2 w3 :
  same_settings w1 w2 → same_settings w2 w3 → same_settings w1 w3.
Proof. unfold same_settings. congruence. Qed.

Lemma same_settings_emit e : preserves same_settings (emit e).
Proof. intros w r w1 [= <- <-]. done. Qed.

Lemma same_settings_set_method m : preserves same_settings (set_method m).
Proof. intros w r w1 [= <- <-]. done. Qed.

Lemma same_settings_readline : preserves same_settings readline.
Proof.
  intros w r w1. unfold readline.
  destruct (stdin w) as [|[text|] rest]; intros [= <- <-]; done.
Qed.

Lemma loop_body_same_settings l : preserves same_settings (loop_body l).
Proof.
  exact (preserves_loop_body _ same_settings_refl same_settings_trans
           same_settings_emit same_settings_set_method same_settings_readline l).
Qed.

Lemma while_true_same_settings l fuel w r w1 :
  while_true fuel (loop_body l) w = Some (r, w1) → settings w1 = settings w.
Proof.
  exact (preserves_while_true _ same_settings_refl same_settings_trans
           _ fuel w r w1 (loop_body_same_settings l)).
Qed.

Lemma handle_interrupt_same_settings r :
  preserves same_settings (handle_interrupt r).
Proof.
  exact (preserves_handle_interrupt _ same_settings_refl same_settings_emit r).
Qed.

Lemma extends_trace_refl w : extends_trace w w.
Proof. exists []. by rewrite app_nil_r. Qed.

Lemma extends_trace_trans w1 w2 w3 :
  extends_trace w1 w2 → extends_trace w2 w3 → extends_trace w1 w3.
Proof.
  intros [e1 H1] [e2 H2]. exists (e1 ++ e2). by rewrite H2, H1, app_assoc.
Qed.

Lemma extends_trace_emit e : preserves extends_trace (emit e).
Proof. intros w r w1 [= <- <-]. by exists [e]. Qed.

Lemma extends_trace_set_method m : preserves extends_trace (set_method m).
Proof. intros w r w1 [= <- <-]. exists []. cbn. by rewrite app_nil_r. Qed.

Lemma extends_trace_readline : preserves extends_trace readline.
Proof.
  intros w r w1. unfold readline.
  destruct (stdin w) as [|[text|] rest]; intros [= <- <-];
    exists []; cbn; by rewrite app_nil_r.
Qed.

Lemma only_downloads_refl w : only_downloads w w.
Proof. repeat split. exists []. by rewrite app_nil_r. Qed.

Lemma only_downloads_trans w1 w2 w3 :
  only_downloads w1 w2 → only_downloads w2 w3 → only_downloads w1 w3.
Proof.
  intros (S1 & M1 & I1 & e1 & T1 & F1) (S2 & M2 & I2 & e2 & T2 & F2).
  repeat split; [congruence..|].
  exists (e1 ++ e2). split; [by rewrite T2, T1, app_assoc|].
  by apply Forall_app.
Qed.

Lemma only_downloads_emit s p : preserves only_downloads (emit (DownloadOne s p)).
Proof.
  intros w r w1 [= <- <-]. repeat split.
  exists [DownloadOne s p]. split; [done|]. by repeat constructor.
Qed.

(** Whatever the batch does, it leaves the settings, the method attribute
    and the input alone, and adds to the trace only single-song calls. *)
Lemma run_batch_only_downloads b : preserves only_downloads (run_batch b).
Proof.
  exact (preserves_run_batch _ only_downloads_refl only_downloads_trans
           only_downloads_emit b).
Qed.

End Frames.

(** ** Settings overrides: setup and teardown *)

Section Overrides.
Context `{Collaborators}.

Lemma setup_spec w v :
  settings w !! "output" = Some v →
  ∃ w1, setup w = (Ok (Locals (flag w "structured") (flag w "replace_spaces") v), w1)
        ∧ settings w1
          = overridden (flag w "structured") (flag w "replace_spaces") (settings w)
        ∧ download_song_to_file w1 = download_song_to_file w
        ∧ stdin w1 = stdin w.
Proof.
  intros Hout. unfold setup, overridden, flag. run. rewrite Hout.
  destruct (truthy (default (VBool false) (settings w !! "structured")));
    destruct (truthy (default (VBool false) (settings w !! "replace_spaces")));
    cbn; eexists; split; try reflexivity; done.
Qed.

Lemma setup_no_output w :
  settings w !! "output" = None → setup w = (Raise (KeyError "output"), w).
Proof. intros Hout. unfold setup. run. by rewrite Hout. Qed.

Lemma teardown_spec l w :
  ∃ w1, teardown l w = (Ok tt, w1)
        ∧ settings w1 = restored l (settings w)
        ∧ download_song_to_file w1 = download_song_to_file w
        ∧ stdin w1 = stdin w ∧ trace w1 = trace w.
Proof.
  unfold teardown, restored. run.
  destruct (truthy (use_artist_album_structure l));
    destruct (truthy (replace_spaces l)); cbn [andb settings].
  all: try (destruct w; eexists; split; [reflexivity|done]).
  - destruct (<["output":=original_output l]> (settings w) !! "space_replacer")
      as [f|] eqn:E.
    + rewrite bool_decide_eq_true_2 by eauto.
      cbn [settings download_song_to_file stdin trace]. rewrite E.
      eexists; split; [reflexivity|done].
    + rewrite bool_decide_eq_false_2 by (by intros [? ?]).
      eexists; split; [reflexivity|]. cbn. by rewrite delete_id.
  - destruct (settings w !! "space_replacer") as [f|] eqn:E.
    + rewrite bool_decide_eq_true_2 by eauto.
      cbn [settings download_song_to_file stdin trace]. rewrite E.
      eexists; split; [reflexivity|done].
    + rewrite bool_decide_eq_false_2 by (by intros [? ?]).
      destruct w; eexists; split; [reflexivity|]. cbn in *. by rewrite delete_id.
Qed.

(** The settings a session leaves behind, in terms of those it found. *)
Lemma pconsole_settings query fuel w v r w1 :
  settings w !! "output" = Some v →
  pconsole query fuel w = Some (r, w1) →
  settings w1
  = if truthy (flag w "replace_spaces")
    then delete "space_replacer" (settings w) else settings w.
Proof.
  intros Hout. unfold pconsole.
  destruct (setup_spec w v Hout) as (w0 & -> & Hs0 & _).
  unfold session.
  destruct (while_true fuel _ w0) as [[r0 wl]|] eqn:El; [|done].
  apply while_true_same_settings in El.
  destruct (handle_interrupt r0 wl) as [r1 wh] eqn:Eh.
  apply handle_interrupt_same_settings in Eh. unfold same_settings in Eh.
  destruct (teardown_spec (Locals (flag w "structured") (flag w "replace_spaces") v) wh)
    as (wt & -> & Hst & _).
  intros [= <- <-]. rewrite Hst, Eh, El, Hs0.
  unfold restored, overridden. cbn [use_artist_album_structure replace_spaces original_output].
  destruct (truthy (flag w "structured")); destruct (truthy (flag w "replace_spaces")).
  all: apply map_eq; intros k.
  all: destruct (decide (k = "output")) as [->|];
    [|destruct (decide (k = "space_replacer")) as [->|]];
    by simplify_map_eq.
Qed.

(** C1: whenever a session comes to an end, whatever ended the loop (exit
    or quit, an interrupt, a failure going on to the caller), the [output]
    entry of the settings is what it was before the session and there is no
    [space_replacer] entry.  The settings a session starts from hold no
    [space_replacer]: the entry is written on line 54 only and is gone at
    the end of every session. *)
Theorem session_end_restores_settings query fuel w r w1 :
  settings w !! "space_replacer" = None →
  pconsole query fuel w = Some (r, w1) →
  settings w1 !! "output" = settings w !! "output"
  ∧ settings w1 !! "space_replacer" = None.
Proof.
  intros Hsr Hrun.
  destruct (settings w !! "output") as [v|] eqn:Hout.
  - rewrite (pconsole_settings _ _ _ _ _ _ Hout Hrun).
    destruct (truthy (flag w "replace_spaces")).
    + rewrite lookup_delete_ne by done. by rewrite lookup_delete_eq.
    + done.
  - unfold pconsole in Hrun. rewrite setup_no_output in Hrun by done.
    injection Hrun as <- <-. done.
Qed.

End Overrides.

(** ** Running a computation step by step *)

Section Steps.
Context `{Collaborators}.

Lemma bind_ret {A B} (a : A) (k : A → M B) w : bind (ret a) k w = k a w.
Proof. done. Qed.

Lemma bind_raise {A B} e (k : A → M B) w : bind (raise e) k w = (Raise e, w).
Proof. done. Qed.

Lemma bind_bind {A B C} (c : M A) (f : A → M B) (g : B → M C) w :
  bind (bind c f) g w = bind c (λ a, bind (f a) g) w.
Proof. unfold bind. by destruct (c w) as [[a|e] w1]. Qed.

Lemma bind_emit {A} e (k : unit → M A) w : bind (emit e) k w = k tt (after [e] w).
Proof. done. Qed.

Lemma bind_lift_ok {A B} (a : A) (k : A → M B) w : bind (lift (Ok a)) k w = k a w.
Proof. done. Qed.

Lemma bind_lift_raise {A B} e (k : A → M B) w :
  bind (lift (Raise e)) k w = (Raise e, w).
Proof. done. Qed.

Lemma bind_settings_get {A} key d (k : value → M A) w :
  bind (settings_get key d) k w = k (default d (settings w !! key)) w.
Proof. done. Qed.

Lemma bind_settings_item {A} key v (k : value → M A) w :
  settings w !! key = Some v → bind (settings_item key) k w = k v w.
Proof. intros Hk. unfold bind, settings_item. by rewrite Hk. Qed.

Lemma bind_settings_contains {A} key (k : bool → M A) w :
  bind (settings_contains key) k w
  = k (bool_decide (is_Some (settings w !! key))) w.
Proof. done. Qed.

Lemma bind_settings_item_none {A} key (k : value → M A) w :
  settings w !! key = None →
  bind (settings_item key) k w = (Raise (KeyError key), w).
Proof. intros Hk. unfold bind, settings_item. by rewrite Hk. Qed.

Lemma settings_with_method m w : settings (with_method m w) = settings w.
Proof. done. Qed.

Lemma bind_get_method {A} (k : method → M A) w :
  bind get_method k w = k (download_song_to_file w) w.
Proof. done. Qed.

Lemma bind_set_method {A} m (k : unit → M A) w :
  bind (set_method m) k w = k tt (with_method m w).
Proof. done. Qed.

Lemma after_after evs1 evs2 w : after evs2 (after evs1 w) = after (evs1 ++ evs2) w.
Proof. unfold after. cbn. by rewrite <- app_assoc. Qed.

Lemma settings_after evs w : settings (after evs w) = settings w.
Proof. done. Qed.

Lemma method_after evs w : download_song_to_file (after evs w) = download_song_to_file w.
Proof. done. Qed.

Lemma after_with_method evs m w : after evs (with_method m w) = with_method m (after evs w).
Proof. done. Qed.

Lemma after_prompted evs rest w :
  after evs (prompted rest w)
  = World (settings w) (download_song_to_file w) rest
          (trace w ++ [StdoutWrite "> "; StdoutFlush] ++ evs).
Proof. unfold after, prompted. cbn. by rewrite <- app_assoc. Qed.

End Steps.

(** Runs the binds one after the other, gathering the events. *)
Ltac steps :=
  repeat first
    [ rewrite bind_bind | rewrite bind_emit | rewrite bind_ret
    | rewrite bind_settings_get | rewrite bind_get_method
    | rewrite bind_set_method | rewrite bind_lift_ok | rewrite bind_lift_raise
    | erewrite bind_settings_item by (rewrite ?settings_after; eassumption)
    | rewrite after_with_method | rewrite after_after | rewrite settings_after
    | rewrite method_after ];
  cbn [app].

(** ** One turn of the loop *)

Section Turns.
Context `{Collaborators}.

Lemma lower_nonempty url : PyStr.truthy url = false → PyStr.lower url = EmptyString.
Proof. by destruct url. Qed.

Lemma help_is_no_exit url :
  is_help_command url = true → is_exit_command url = false.
Proof.
  unfold is_help_command, is_exit_command.
  intros Hh%bool_decide_eq_true. rewrite Hh. done.
Qed.

Lemma help_is_nonempty url : is_help_command url = true → PyStr.truthy url = true.
Proof.
  unfold is_help_command. intros Hh%bool_decide_eq_true.
  destruct (PyStr.truthy url) eqn:E; [done|].
  by rewrite (lower_nonempty _ E) in Hh.
Qed.

Lemma exit_is_nonempty url : is_exit_command url = true → PyStr.truthy url = true.
Proof.
  unfold is_exit_command. intros Hh%bool_decide_eq_true.
  destruct (PyStr.truthy url) eqn:E; [done|].
  rewrite (lower_nonempty _ E) in Hh.
  rewrite !elem_of_cons, elem_of_nil in Hh. by destruct Hh as [?|[?|?]].
Qed.

(** What a turn does once a line has been read: the prompt is out, the
    line is taken from the input, and the rest goes by the line. *)
Lemma loop_body_line l w text rest :
  stdin w = Line text :: rest →
  loop_body l w = handle_line l text (prompted rest w).
Proof.
  intros Hin. unfold loop_body, prompted.
  unfold bind at 1 2 3. unfold emit at 1 2. unfold readline.
  cbn [settings download_song_to_file stdin trace].
  rewrite Hin, <- app_assoc. done.
Qed.

(** At end-of-file [readline] returns the empty string: the turn is that
    of a blank line, and the input is still at end-of-file. *)
Lemma loop_body_eof l w :
  stdin w = [] → loop_body l w = (Ok Continue, prompted [] w).
Proof.
  intros Hin. unfold loop_body, prompted.
  unfold bind at 1 2 3. unfold emit at 1 2. unfold readline.
  cbn [settings download_song_to_file stdin trace].
  rewrite Hin, <- app_assoc. done.
Qed.

Lemma loop_body_interrupt l w rest :
  stdin w = Interrupt :: rest →
  loop_body l w = (Raise KeyboardInterrupt, prompted rest w).
Proof.
  intros Hin. unfold loop_body, prompted.
  unfold bind at 1 2 3. unfold emit at 1 2. unfold readline.
  cbn [settings download_song_to_file stdin trace].
  rewrite Hin, <- app_assoc. done.
Qed.

Lemma handle_line_extends_trace l line :
  preserves extends_trace (handle_line l line).
Proof.
  exact (preserves_handle_line _ extends_trace_refl extends_trace_trans
           extends_trace_emit extends_trace_set_method l line).
Qed.

(** Every turn opens with the prompt. *)
Lemma loop_body_opens_with_prompt l w r w1 :
  loop_body l w = (r, w1) →
  ∃ evs, trace w1 = trace w ++ StdoutWrite "> " :: StdoutFlush :: evs.
Proof.
  destruct (stdin w) as [|[text|] rest] eqn:Hin.
  - rewrite loop_body_eof by done. intros [= <- <-]. by exists [].
  - rewrite (loop_body_line _ _ _ _ Hin). intros Hrun.
    apply handle_line_extends_trace in Hrun as [evs Hevs].
    exists evs. rewrite Hevs. unfold prompted. cbn. by rewrite <- app_assoc.
  - rewrite (loop_body_interrupt _ _ _ Hin). intros [= <- <-]. by exists [].
Qed.

(** A blank line: nothing but the prompt has happened. *)
Lemma handle_line_blank l line w :
  PyStr.strip line = EmptyString → handle_line l line w = (Ok Continue, w).
Proof. intros Hs. unfold handle_line. by rewrite Hs. Qed.

(** C8: a line that is empty once stripped makes the turn end with nothing
    printed after the prompt (no echo), the settings and the downloader's
    method as they were, and the loop goes on to its next turn, which
    opens with the prompt again. *)
Theorem blank_line_reprompts l w text rest :
  stdin w = Line text :: rest →
  PyStr.strip text = EmptyString →
  loop_body l w
  = (Ok Continue,
     World (settings w) (download_song_to_file w) rest
           (trace w ++ [StdoutWrite "> "; StdoutFlush]))
  ∧ (∀ fuel, while_true (S fuel) (loop_body l) w
             = while_true fuel (loop_body l) (prompted rest w))
  ∧ (∀ r w1, loop_body l (prompted rest w) = (r, w1) →
       ∃ evs, trace w1
              = trace w ++ [StdoutWrite "> "; StdoutFlush]
                ++ StdoutWrite "> " :: StdoutFlush :: evs).
Proof.
  intros Hin Hs.
  assert (Hturn : loop_body l w = (Ok Continue, prompted rest w)).
  { by rewrite (loop_body_line _ _ _ _ Hin), handle_line_blank. }
  split; [done|]. split.
  - intros fuel. cbn [while_true]. by rewrite Hturn.
  - intros r w1 Hnext.
    apply loop_body_opens_with_prompt in Hnext as [evs ->].
    exists evs. unfold prompted. cbn. by rewrite <- app_assoc.
Qed.

(** A line that is neither blank nor a command: the echo, then the link
    test. *)
Lemma handle_line_url l line w url :
  PyStr.strip line = url →
  PyStr.truthy url = true →
  is_exit_command url = false →
  is_help_command url = false →
  handle_line l line w
  = (if is_album_link url then process_album l url
     else emit (LogError "Currently only supporting Spotify album links") ;;
          ret Continue) (after [PrintLine ("Input: " +:+ url)] w).
Proof.
  intros Hs Ht He Hh. unfold handle_line. rewrite Hs. cbv zeta.
  rewrite Ht, He, Hh. cbn [negb]. done.
Qed.

Lemma handle_line_help l line w url :
  PyStr.strip line = url →
  is_help_command url = true →
  handle_line l line w
  = (Ok Continue,
     after (PrintLine ("Input: " +:+ url)
            :: map PrintLine
                 (help_lines
                    (if truthy (use_artist_album_structure l)
                     then "artist/album" else "default")
                    (if truthy (replace_spaces l) then "hyphens" else "none")
                    (py_str (default (VStr "mp3") (settings w !! "format")))))
           w).
Proof.
  intros Hs Hh. unfold handle_line. rewrite Hs. cbv zeta.
  rewrite (help_is_nonempty _ Hh), (help_is_no_exit _ Hh), Hh. cbn [negb].
  unfold show_help, print_line. steps. done.
Qed.

(** C9: a line that is [help] in any letter case once stripped makes the
    turn print the echo and the help block, whose format line carries the
    [format] setting as it is (or mp3 when there is none); the world is
    otherwise as it was, no collaborator is called, and the loop goes on
    to its next turn. *)
Theorem help_prints_block l w text rest :
  stdin w = Line text :: rest →
  is_help_command (PyStr.strip text) = true →
  let shown := py_str (default (VStr "mp3") (settings w !! "format")) in
  let w1 :=
    World (settings w) (download_song_to_file w) rest
      (trace w
       ++ [StdoutWrite "> "; StdoutFlush;
           PrintLine ("Input: " +:+ PyStr.strip text)]
       ++ map PrintLine
            (help_lines
               (if truthy (use_artist_album_structure l)
                then "artist/album" else "default")
               (if truthy (replace_spaces l) then "hyphens" else "none")
               shown)) in
  loop_body l w = (Ok Continue, w1)
  ∧ PrintLine ("  Output format: " +:+ shown) ∈ trace w1
  ∧ (∀ fmt, settings w !! "format" = Some (VStr fmt) → shown = fmt)
  ∧ (settings w !! "format" = None → shown = "mp3")
  ∧ (∀ fuel, while_true (S fuel) (loop_body l) w
             = while_true fuel (loop_body l) w1).
Proof.
  intros Hin Hh shown w1.
  assert (Hturn : loop_body l w = (Ok Continue, w1)).
  { rewrite (loop_body_line _ _ _ _ Hin).
    rewrite (handle_line_help _ _ _ _ eq_refl Hh).
    unfold w1, after, prompted. cbn [settings download_song_to_file stdin trace].
    by rewrite <- !app_assoc. }
  split; [done|]. split; [|split; [|split]].
  - unfold w1. cbn [trace]. apply list_elem_of_In.
    rewrite !in_app_iff. right. right. apply in_map.
    unfold help_lines. cbn [In]. tauto.
  - intros fmt Hf. unfold shown. by rewrite Hf.
  - intros Hf. unfold shown. by rewrite Hf.
  - intros fuel. cbn [while_true]. by rewrite Hturn.
Qed.

(** C5: a stripped line that is not empty and is none of [help], [exit],
    [quit] goes by the link test.  With both [album] and
    [open.spotify.com] in it, the turn is the download branch; otherwise
    the turn logs the error, calls no collaborator, leaves the settings
    and the downloader as they were, and the loop goes on to its next
    turn. *)
Theorem link_test_decides l w text rest url :
  stdin w = Line text :: rest →
  PyStr.strip text = url →
  PyStr.truthy url = true →
  is_exit_command url = false →
  is_help_command url = false →
  let echoed :=
    World (settings w) (download_song_to_file w) rest
      (trace w ++ [StdoutWrite "> "; StdoutFlush; PrintLine ("Input: " +:+ url)]) in
  (PyStr.contains "album" url = true
   ∧ PyStr.contains "open.spotify.com" url = true →
   loop_body l w = process_album l url echoed)
  ∧ (¬ (PyStr.contains "album" url = true
        ∧ PyStr.contains "open.spotify.com" url = true) →
     let w1 :=
       World (settings w) (download_song_to_file w) rest
         (trace w ++ [StdoutWrite "> "; StdoutFlush;
                      PrintLine ("Input: " +:+ url);
                      LogError "Currently only supporting Spotify album links"]) in
     loop_body l w = (Ok Continue, w1)
     ∧ ∀ fuel, while_true (S fuel) (loop_body l) w
               = while_true fuel (loop_body l) w1).
Proof.
  intros Hin Hs Ht He Hh echoed.
  assert (Hturn : loop_body l w
                  = (if is_album_link url then process_album l url
                     else emit (LogError "Currently only supporting Spotify album links") ;;
                          ret Continue) echoed).
  { rewrite (loop_body_line _ _ _ _ Hin).
    rewrite (handle_line_url _ _ _ _ Hs Ht He Hh).
    unfold echoed, after, prompted. cbn [settings download_song_to_file stdin trace].
    by rewrite <- !app_assoc. }
  unfold is_album_link in Hturn. split.
  - intros [Ha Hb]. by rewrite Ha, Hb in Hturn.
  - intros Hno w1.
    assert (Hlink : PyStr.contains "album" url
                    && PyStr.contains "open.spotify.com" url = false).
    { destruct (PyStr.contains "album" url);
        destruct (PyStr.contains "open.spotify.com" url); try done.
      by destruct Hno. }
    rewrite Hlink in Hturn.
    assert (Hturn1 : loop_body l w = (Ok Continue, w1)).
    { rewrite Hturn. unfold echoed, w1. run. by rewrite <- !app_assoc. }
    split; [done|]. intros fuel. cbn [while_true]. by rewrite Hturn1.
Qed.

End Turns.

(** ** The download branch *)

Section Albums.
Context `{Collaborators}.

Lemma process_album_unresolved l url w a b c d e err :
  settings w !! "ytm_data" = Some a →
  settings w !! "playlist_numbering" = Some b →
  settings w !! "ignore_albums" = Some c →
  settings w !! "album_type" = Some d →
  settings w !! "playlist_retain_track_cover" = Some e →
  get_simple_songs [url] a b c d e = Raise err →
  process_album l url w
  = (Raise err,
     after [LogInfo ("Processing album: " +:+ url); Resolve [url] a b c d e] w).
Proof.
  intros Ha Hb Hc Hd He Hsongs. unfold process_album. steps.
  rewrite Hsongs. by steps.
Qed.

(** The download branch once the album is resolved: the batch runs with
    the wrapper in place of the method under [replace_spaces], and the
    method is put back when the batch returns. *)
Lemma process_album_resolved l url w a b c d e songs :
  settings w !! "ytm_data" = Some a →
  settings w !! "playlist_numbering" = Some b →
  settings w !! "ignore_albums" = Some c →
  settings w !! "album_type" = Some d →
  settings w !! "playlist_retain_track_cover" = Some e →
  get_simple_songs [url] a b c d e = Ok songs →
  let w0 := after [LogInfo ("Processing album: " +:+ url);
                   Resolve [url] a b c d e; DownloadMany songs] w in
  process_album l url w
  = if truthy (replace_spaces l)
    then match run_batch (download_multiple_songs songs)
                 (with_method (WrapperMethod (download_song_to_file w)) w0) with
         | (Ok _, w1) => (Ok Continue, with_method (download_song_to_file w) w1)
         | (Raise err, w1) => (Raise err, w1)
         end
    else match run_batch (download_multiple_songs songs) w0 with
         | (Ok _, w1) => (Ok Continue, w1)
         | (Raise err, w1) => (Raise err, w1)
         end.
Proof.
  intros Ha Hb Hc Hd He Hsongs w0. unfold process_album, w0. steps.
  rewrite Hsongs. steps.
  destruct (truthy (replace_spaces l)); steps.
  - unfold bind at 1.
    destruct (run_batch _ _) as [[v|err] w1]; [|done]. by steps.
  - unfold bind at 1.
    destruct (run_batch _ _) as [[v|err] w1]; [|done]. by steps.
Qed.

(** C6: a line taken for an album link makes the turn call the resolver
    once, with the list of that one link and the five settings as they
    are at that moment; when the resolver returns songs, the batch
    download is called once, with exactly those songs, and all that
    follows in the turn are the single-song calls of the batch; when the
    resolver raises, nothing else happens in the turn. *)
Theorem album_link_resolved_then_downloaded l w text rest url a b c d e :
  stdin w = Line text :: rest →
  PyStr.strip text = url →
  PyStr.truthy url = true →
  is_exit_command url = false →
  is_help_command url = false →
  is_album_link url = true →
  settings w !! "ytm_data" = Some a →
  settings w !! "playlist_numbering" = Some b →
  settings w !! "ignore_albums" = Some c →
  settings w !! "album_type" = Some d →
  settings w !! "playlist_retain_track_cover" = Some e →
  ∃ r w1 evs,
    loop_body l w = (r, w1)
    ∧ trace w1
      = trace w
        ++ [StdoutWrite "> "; StdoutFlush; PrintLine ("Input: " +:+ url);
            LogInfo ("Processing album: " +:+ url);
            Resolve [url] a b c d e]
        ++ evs
    ∧ match get_simple_songs [url] a b c d e with
      | Ok songs =>
          ∃ downloads,
            evs = DownloadMany songs :: downloads
            ∧ Forall is_download_one downloads
      | Raise err => evs = [] ∧ r = Raise err
      end.
Proof.
  intros Hin Hs Ht Hx Hh Hl Ha Hb Hc Hd He.
  rewrite (loop_body_line _ _ _ _ Hin).
  rewrite (handle_line_url _ _ _ _ Hs Ht Hx Hh), Hl.
  set (w0 := after _ (prompted rest w)).
  assert (Htr : trace w0
                = trace w ++ [StdoutWrite "> "; StdoutFlush;
                              PrintLine ("Input: " +:+ url)]).
  { unfold w0, after, prompted. cbn. by rewrite <- !app_assoc. }
  destruct (get_simple_songs [url] a b c d e) as [songs|err] eqn:Hsongs.
  - rewrite (process_album_resolved l url w0 a b c d e songs) by done.
    cbv zeta.
    destruct (truthy (replace_spaces l)).
    + destruct (run_batch _ _) as [rb wb] eqn:Eb.
      apply run_batch_only_downloads in Eb as (_ & _ & _ & dl & Hdl & Hall).
      cbn [trace with_method after] in Hdl.
      exists (match rb with Ok _ => Ok Continue | Raise err => Raise err end),
        (match rb with
         | Ok _ => with_method (download_song_to_file w0) wb
         | Raise _ => wb end), (DownloadMany songs :: dl).
      split; [by destruct rb|]. split; [|by eauto].
      replace (trace (match rb with
                      | Ok _ => with_method (download_song_to_file w0) wb
                      | Raise _ => wb end)) with (trace wb) by (by destruct rb).
      rewrite Hdl, Htr, <- !app_assoc. done.
    + destruct (run_batch _ _) as [rb wb] eqn:Eb.
      apply run_batch_only_downloads in Eb as (_ & _ & _ & dl & Hdl & Hall).
      cbn [trace with_method after] in Hdl.
      exists (match rb with Ok _ => Ok Continue | Raise err => Raise err end),
        wb, (DownloadMany songs :: dl).
      split; [by destruct rb|]. split; [|by eauto].
      rewrite Hdl, Htr, <- !app_assoc. done.
  - rewrite (process_album_unresolved l url w0 a b c d e err) by done.
    eexists _, _, []. split; [done|]. split; [|done].
    cbn [trace after]. rewrite Htr, <- !app_assoc. done.
Qed.

End Albums.

(** ** The wrapper around the single-song method *)

Section Wrapper.
Context `{Collaborators}.

Lemma space_replacer_total p : ∃ q, space_replacer p = Ok q.
Proof.
  destruct (PyStr.truthy p) eqn:Hp.
  - destruct (split_snoc "/" p) as (dirs & final & Hs).
    eexists. by apply (space_replacer_segments p dirs final).
  - exists p. unfold space_replacer. by rewrite Hp.
Qed.

Lemma space_replacer_hyphenated p : space_replacer p = Ok (hyphenated p).
Proof.
  unfold hyphenated. by destruct (space_replacer_total p) as [q ->].
Qed.

Lemma hyphenated_empty p : PyStr.truthy p = false → hyphenated p = p.
Proof. intros Hp. unfold hyphenated, space_replacer. by rewrite Hp. Qed.

(** Lines 127-132, with the replacer in the settings: the wrapper hands
    the song to the method it replaced, with the path rewritten. *)
Lemma wrapper_call m s p w :
  settings w !! "space_replacer" = Some (VFunc SpaceReplacer) →
  call_method (WrapperMethod m) s p w = call_method m s (hyphenated p) w.
Proof.
  intros Hsr. cbn [call_method]. unfold download_song_to_file_wrapper.
  rewrite bind_settings_contains.
  rewrite bool_decide_eq_true_2 by eauto.
  destruct (PyStr.truthy p) eqn:Hp; cbn [andb]; steps.
  - cbn [call_value]. rewrite space_replacer_hyphenated. by steps.
  - by rewrite hyphenated_empty.
Qed.

(** Calling a method neither reads nor writes the method attribute. *)
Lemma call_method_with_method m x s p w :
  call_method m s p (with_method x w)
  = let '(r, w1) := call_method m s p w in (r, with_method x w1).
Proof.
  revert p. induction m as [|m IH]; intros p; cbn [call_method].
  - by steps.
  - unfold download_song_to_file_wrapper.
    rewrite !bind_settings_contains, settings_with_method.
    destruct (PyStr.truthy p
              && bool_decide (is_Some (settings w !! "space_replacer"))).
    + rewrite !bind_bind.
      destruct (settings w !! "space_replacer") as [f|] eqn:Hf.
      * rewrite !(bind_settings_item _ f) by done.
        destruct (call_value f p) as [q|err]; steps; [apply IH|done].
      * by rewrite !bind_settings_item_none.
    + steps. apply IH.
Qed.

Lemma call_method_same_settings m s p : preserves same_settings (call_method m s p).
Proof.
  exact (preserves_call_method _ same_settings_refl same_settings_trans
           (λ s p, same_settings_emit _) m s p).
Qed.

(** With the wrapper installed and the replacer in the settings, the batch
    is the batch in which every call goes to the replaced method with the
    rewritten path. *)
Lemma run_batch_wrapped m b w :
  settings w !! "space_replacer" = Some (VFunc SpaceReplacer) →
  run_batch b (with_method (WrapperMethod m) w)
  = let '(r, w1) :=
      run_batch_via (λ s p, call_method m s (hyphenated p)) b w in
    (r, with_method (WrapperMethod m) w1).
Proof.
  revert w. induction b as [v|e|s p k IH]; intros w Hsr;
    cbn [run_batch run_batch_via]; [done..|].
  unfold bind, get_method. cbn [download_song_to_file with_method].
  change (World (settings w) (WrapperMethod m) (stdin w) (trace w))
    with (with_method (WrapperMethod m) w).
  rewrite wrapper_call by done.
  rewrite call_method_with_method.
  destruct (call_method m s (hyphenated p) w) as [r w1] eqn:E.
  apply IH. apply call_method_same_settings in E.
  unfold same_settings in E. by rewrite E.
Qed.

(** C2: under [replace_spaces], with the replacer in the settings, the
    download branch for a resolved album runs the batch so that every
    single-song call it makes reaches the method that was on the
    downloader with the path rewritten by the space replacer; when the
    batch returns, that method is on the downloader again. *)
Theorem wrapper_rewrites_batch_paths l url w a b c d e songs :
  truthy (replace_spaces l) = true →
  settings w !! "space_replacer" = Some (VFunc SpaceReplacer) →
  settings w !! "ytm_data" = Some a →
  settings w !! "playlist_numbering" = Some b →
  settings w !! "ignore_albums" = Some c →
  settings w !! "album_type" = Some d →
  settings w !! "playlist_retain_track_cover" = Some e →
  get_simple_songs [url] a b c d e = Ok songs →
  let original := download_song_to_file w in
  let w0 := after [LogInfo ("Processing album: " +:+ url);
                   Resolve [url] a b c d e; DownloadMany songs] w in
  process_album l url w
  = match run_batch_via (λ s p, call_method original s (hyphenated p))
            (download_multiple_songs songs) w0 with
    | (Ok _, w1) => (Ok Continue, with_method original w1)
    | (Raise err, w1) => (Raise err, with_method (WrapperMethod original) w1)
    end
  ∧ (∀ p, space_replacer p = Ok (hyphenated p))
  ∧ hyphenated "Artist Name/My Song.mp3" = "Artist Name/My-Song.mp3"
  ∧ (∀ w1, process_album l url w = (Ok Continue, w1) →
           download_song_to_file w1 = original).
Proof.
  intros Hr Hsr Ha Hb Hc Hd He Hsongs original w0.
  assert (Hrun : process_album l url w
    = match run_batch_via (λ s p, call_method original s (hyphenated p))
              (download_multiple_songs songs) w0 with
      | (Ok _, w1) => (Ok Continue, with_method original w1)
      | (Raise err, w1) => (Raise err, with_method (WrapperMethod original) w1)
      end).
  { rewrite (process_album_resolved l url w a b c d e songs) by done.
    cbv zeta. rewrite Hr. fold w0. fold original.
    rewrite run_batch_wrapped by done.
    by destruct (run_batch_via _ _ w0) as [[v|err] w1]. }
  split; [done|]. split; [apply space_replacer_hyphenated|]. split; [done|].
  intros w1. rewrite Hrun.
  destruct (run_batch_via _ _ w0) as [[v|err] w2]; [|done].
  by intros [= <-].
Qed.

End Wrapper.

(** ** Sessions: how the loop starts and how it ends *)

Section Sessions.
Context `{Collaborators}.

(** C7: when [structured] is set (and the settings have an [output]
    entry, without which pconsole raises KeyError before the loop), the
    setup leaves the three-level template under [output] and keeps the
    template it found, which is the one the teardown puts back. *)
Theorem structured_overrides_output w v s :
  settings w !! "output" = Some v →
  settings w !! "structured" = Some s →
  truthy s = true →
  ∃ l w1,
    setup w = (Ok l, w1)
    ∧ settings w1 !! "output" = Some (VStr "{artist}/{album}/{title}")
    ∧ original_output l = v
    ∧ ∀ w2, ∃ w3, teardown l w2 = (Ok tt, w3)
                  ∧ settings w3 !! "output" = Some v.
Proof.
  intros Hout Hs Ht.
  destruct (setup_spec w v Hout) as (w1 & Hsetup & Hset & _).
  assert (Hflag : truthy (flag w "structured") = true).
  { unfold flag. by rewrite Hs. }
  eexists _, w1. split; [exact Hsetup|]. split; [|split; [done|]].
  - rewrite Hset. unfold overridden. rewrite Hflag.
    destruct (truthy (flag w "replace_spaces")); by simplify_map_eq.
  - intros w2.
    destruct (teardown_spec
                (Locals (flag w "structured") (flag w "replace_spaces") v) w2)
      as (w3 & Htd & Hset3 & _).
    exists w3. split; [done|]. rewrite Hset3. unfold restored.
    cbn [use_artist_album_structure replace_spaces original_output].
    rewrite Hflag.
    destruct (truthy (flag w "replace_spaces")); by simplify_map_eq.
Qed.

(** Under [replace_spaces] the setup leaves the replacer in the settings,
    where every turn of the loop finds it, since no turn writes the
    settings. *)
Lemma setup_installs_replacer w v :
  settings w !! "output" = Some v →
  truthy (flag w "replace_spaces") = true →
  ∃ l w1,
    setup w = (Ok l, w1)
    ∧ truthy (replace_spaces l) = true
    ∧ settings w1 !! "space_replacer" = Some (VFunc SpaceReplacer).
Proof.
  intros Hout Hflag.
  destruct (setup_spec w v Hout) as (w1 & Hsetup & Hset & _).
  eexists _, w1. split; [exact Hsetup|]. split; [done|].
  rewrite Hset. unfold overridden. rewrite Hflag. by simplify_map_eq.
Qed.

(** The input at end-of-file: every turn is a blank one, and the input
    is at end-of-file after it as it was before. *)
Lemma eof_loop_forever l fuel w :
  stdin w = [] → while_true fuel (loop_body l) w = None.
Proof.
  revert w. induction fuel as [|fuel IH]; intros w Hin; [done|].
  cbn [while_true]. rewrite loop_body_eof by done. by apply IH.
Qed.

(** C4, at end-of-input: [readline] returns the empty string and raises
    nothing, so that the loop takes blank turns for ever: whatever the
    number of turns allowed, the session has not come to an end, and no
    farewell is printed. *)
Theorem end_of_input_never_ends_session query fuel w :
  is_Some (settings w !! "output") →
  stdin w = [] →
  pconsole query fuel w = None.
Proof.
  intros [v Hout] Hin. unfold pconsole.
  destruct (setup_spec w v Hout) as (w1 & -> & _ & _ & Hin1).
  unfold session. rewrite eof_loop_forever; [done|]. by rewrite Hin1.
Qed.

(** An interrupt while reading ends the session with the farewell. *)
Lemma interrupt_ends_session l fuel w rest :
  stdin w = Interrupt :: rest →
  ∃ w1, session (S fuel) l w = Some (Ok tt, w1)
        ∧ stdin w1 = rest
        ∧ trace w1 = trace w ++ [StdoutWrite "> "; StdoutFlush;
                                 PrintLine (nl +:+ "Exiting pconsole mode.")].
Proof.
  intros Hin. unfold session. cbn [while_true].
  rewrite (loop_body_interrupt _ _ _ Hin). cbn [handle_interrupt].
  unfold print_line, emit.
  destruct (teardown_spec l
              (World (settings (prompted rest w))
                 (download_song_to_file (prompted rest w))
                 (stdin (prompted rest w))
                 (trace (prompted rest w)
                  ++ [PrintLine (nl +:+ "Exiting pconsole mode.")])))
    as (w1 & -> & _ & _ & Hi & Ht).
  exists w1. split; [done|]. split; [done|].
  rewrite Ht. unfold prompted. cbn. by rewrite <- app_assoc.
Qed.

(** [exit] or [quit], in any letter case, ends the session without a
    farewell. *)
Lemma exit_ends_session l fuel w text rest :
  stdin w = Line text :: rest →
  is_exit_command (PyStr.strip text) = true →
  ∃ w1, session (S fuel) l w = Some (Ok tt, w1)
        ∧ stdin w1 = rest
        ∧ trace w1 = trace w ++ [StdoutWrite "> "; StdoutFlush;
                                 PrintLine ("Input: " +:+ PyStr.strip text)].
Proof.
  intros Hin Hx. unfold session. cbn [while_true].
  rewrite (loop_body_line _ _ _ _ Hin). unfold handle_line. cbv zeta.
  rewrite (exit_is_nonempty _ Hx), Hx. cbn [negb]. run.
  cbn [handle_interrupt]. unfold lift.
  match goal with |- context [teardown l ?w0] =>
    destruct (teardown_spec l w0) as (w1 & -> & _ & _ & Hi & Ht) end.
  exists w1. split; [done|]. split; [done|].
  rewrite Ht. cbn. by rewrite <- app_assoc.
Qed.

(** A failure of a collaborator in the first turn ends the session too:
    it goes on to the caller once the teardown has run. *)
Lemma failure_ends_session l fuel w err w1 :
  loop_body l w = (Raise err, w1) →
  err ≠ KeyboardInterrupt → err ≠ EOFError →
  ∃ w2, session (S fuel) l w = Some (Raise err, w2) ∧ trace w2 = trace w1.
Proof.
  intros Hturn Hk He. unfold session. cbn [while_true]. rewrite Hturn.
  assert (Hh : handle_interrupt (Raise err) w1 = (Raise err, w1)).
  { by destruct err. }
  rewrite Hh.
  destruct (teardown_spec l w1) as (w2 & -> & _ & _ & _ & Ht).
  by exists w2.
Qed.

End Sessions.

(** ** More on the space replacer *)

Section ReplacerFacts.
Import PyStr.

Lemma str_app_cons x (a b : string) : String x a +:+ b = String x (a +:+ b).
Proof. done. Qed.

Lemma str_app_assoc (a b c : string) : (a +:+ b) +:+ c = a +:+ (b +:+ c).
Proof. induction a as [|x a IH]; [done|]. by rewrite !str_app_cons, IH. Qed.

Lemma str_length_app (a b : string) :
  String.length (a +:+ b) = String.length a + String.length b.
Proof.
  induction a as [|x a IH]; [done|].
  rewrite str_app_cons. cbn [String.length]. by rewrite IH.
Qed.

Lemma length_map_chars f s : String.length (map_chars f s) = String.length s.
Proof. induction s as [|c s IH]; cbn; [done|]. by rewrite IH. Qed.

(** Splitting at a separator splits the list of segments. *)
Lemma split_app sep a b :
  split sep (a +:+ String sep b) = split sep a ++ split sep b.
Proof.
  induction a as [|c a IH].
  - change (EmptyString +:+ String sep b) with (String sep b).
    cbn [split]. by rewrite Ascii.eqb_refl.
  - rewrite str_app_cons. cbn [split].
    rewrite IH. destruct (Ascii.eqb c sep); [done|].
    destruct (split sep a) as [|p ps] eqn:E; [by apply split_not_nil in E|done].
Qed.

Lemma join_app sep xs ys :
  xs ≠ [] → ys ≠ [] →
  join sep (xs ++ ys) = join sep xs +:+ sep +:+ join sep ys.
Proof.
  induction xs as [|x xs IH]; [done|]. intros _ Hys.
  destruct xs as [|x' xs].
  - destruct ys as [|y ys]; done.
  - change ((x :: x' :: xs) ++ ys) with (x :: x' :: (xs ++ ys)).
    rewrite !join_cons2.
    change (x' :: xs ++ ys) with ((x' :: xs) ++ ys).
    rewrite IH by done. by rewrite !str_app_assoc.
Qed.

Lemma length_join_last sep dirs x y :
  String.length x = String.length y →
  String.length (join sep (dirs ++ [x])) = String.length (join sep (dirs ++ [y])).
Proof.
  intros Hxy. induction dirs as [|d dirs IH]; [done|].
  destruct dirs as [|d' dirs].
  - cbn. by rewrite !str_length_app, Hxy.
  - change ((d :: d' :: dirs) ++ [x]) with (d :: d' :: (dirs ++ [x])).
    change ((d :: d' :: dirs) ++ [y]) with (d :: d' :: (dirs ++ [y])).
    rewrite !join_cons2, !str_length_app.
    change (d' :: dirs ++ [x]) with ((d' :: dirs) ++ [x]).
    change (d' :: dirs ++ [y]) with ((d' :: dirs) ++ [y]).
    by rewrite IH.
Qed.

Lemma replace_no_old old new s : new ≠ old → free_of old (replace old new s).
Proof.
  intros Hne. unfold replace.
  induction s as [|c s IH]; cbn [map_chars free_of]; [done|].
  split; [|done]. by destruct (Ascii.eqb_spec c old).
Qed.

Lemma replace_id_iff old new s :
  new ≠ old → replace old new s = s ↔ free_of old s.
Proof.
  intros Hne. unfold replace.
  induction s as [|c s IH]; cbn [map_chars free_of]; [done|].
  split.
  - intros [= Hc Hs]. split; [|by apply IH].
    destruct (Ascii.eqb_spec c old); congruence.
  - intros [Hc Hs]. rewrite (proj2 IH Hs).
    by destruct (Ascii.eqb_spec c old).
Qed.

Lemma join_nonempty_truthy sep x xs y :
  truthy (join (String sep EmptyString) ((x :: xs) ++ y :: [])) = true.
Proof.
  destruct xs as [|x' xs]; cbn.
  - by destruct x.
  - by destruct x.
Qed.

(** X1: a name without any '/' has every space replaced by a hyphen. *)
Theorem space_replacer_bare_name p :
  free_of "/" p → space_replacer p = Ok (replace " " "-" p).
Proof.
  intros Hp. destruct (truthy p) eqn:Ht.
  - rewrite (space_replacer_segments p [] p Ht); [done|].
    by apply split_free_part.
  - destruct p; [done|discriminate].
Qed.

(** X2: whatever stands before a '/' comes back as it is, spaces and
    slashes included: the replacer of [dir/p] is [dir/] followed by the
    replacer of [p].  In particular a path that ends in '/' comes back
    unchanged. *)
Theorem space_replacer_under_directory dir p :
  space_replacer (dir +:+ "/" +:+ p)
  = res_bind (space_replacer p) (λ q, Ok (dir +:+ "/" +:+ q))
  ∧ space_replacer (dir +:+ "/") = Ok (dir +:+ "/").
Proof.
  assert (Hgen : ∀ p, space_replacer (dir +:+ "/" +:+ p)
                      = res_bind (space_replacer p) (λ q, Ok (dir +:+ "/" +:+ q))).
  { clear p. intros p.
    destruct (split_snoc "/" dir) as (ddirs & dfinal & Hd).
    destruct (split_snoc "/" p) as (pdirs & pfinal & Hp).
    assert (Hsplit : split "/" (dir +:+ "/" +:+ p)
                     = ((ddirs ++ [dfinal]) ++ pdirs) ++ [pfinal]).
    { change (dir +:+ "/" +:+ p) with (dir +:+ String "/" p).
      by rewrite split_app, Hd, Hp, app_assoc. }
    assert (Ht : truthy (dir +:+ "/" +:+ p) = true).
    { by destruct dir. }
    rewrite (space_replacer_segments _ _ _ Ht Hsplit).
    rewrite <- app_assoc, join_app by (by destruct ddirs; destruct pdirs).
    rewrite <- Hd, join_split.
    destruct (truthy p) eqn:Htp.
    - rewrite (space_replacer_segments p pdirs pfinal Htp Hp). done.
    - destruct p; [|discriminate]. cbn in Hp.
      destruct pdirs as [|? [|]]; [|discriminate..].
      injection Hp as <-. done. }
  split; [apply Hgen|].
  specialize (Hgen EmptyString). cbn [res_bind space_replacer truthy negb] in Hgen.
  done.
Qed.

(** X3: the replacer returns a string of the same length as its argument. *)
Theorem space_replacer_keeps_length p q :
  space_replacer p = Ok q → String.length q = String.length p.
Proof.
  destruct (truthy p) eqn:Ht.
  - destruct (split_snoc "/" p) as (dirs & final & Hs).
    rewrite (space_replacer_segments p dirs final Ht Hs). intros [= <-].
    rewrite <- (join_split "/" p), Hs.
    apply length_join_last. apply length_map_chars.
  - unfold space_replacer. rewrite Ht. by intros [= <-].
Qed.

(** X4: the final segment of what the replacer returns has no space left,
    and the replacer returns its argument unchanged exactly when the final
    segment of the argument has no space. *)
Theorem space_replacer_final_segment_spaces p :
  (∀ q final, space_replacer p = Ok q →
              last (split "/" q) = Some final → free_of " " final)
  ∧ (space_replacer p = Ok p
     ↔ ∀ final, last (split "/" p) = Some final → free_of " " final).
Proof.
  destruct (truthy p) eqn:Ht.
  - destruct (split_snoc "/" p) as (dirs & final & Hs).
    pose proof (space_replacer_segments p dirs final Ht Hs) as Hq.
    assert (Hfree : Forall (free_of "/") (dirs ++ [replace " " "-" final])).
    { apply segments_free_after_replace. rewrite <- Hs. apply split_free. }
    split.
    + intros q f. rewrite Hq. intros [= <-].
      rewrite split_join by (done || by destruct dirs).
      rewrite last_snoc. intros [= <-]. by apply replace_no_old.
    + rewrite Hq, Hs, last_snoc. split.
      * intros [= Hjoin] f [= <-].
        apply (f_equal (split "/")) in Hjoin.
        rewrite split_join in Hjoin by (done || by destruct dirs).
        rewrite Hs in Hjoin. apply app_inj_tail in Hjoin as [_ Hr].
        by apply (replace_id_iff " " "-").
      * intros Hf. f_equal.
        rewrite (proj2 (replace_id_iff " " "-" final ltac:(done)) (Hf _ eq_refl)).
        by rewrite <- Hs, join_split.
  - destruct p; [|discriminate]. split.
    + intros q f [= <-]. cbn. by intros [= <-].
    + split; [|done]. intros _ f. cbn. by intros [= <-].
Qed.

End ReplacerFacts.

(** ** The final segment, character by character *)

Section FinalSegment.
Import PyStr.

(** A path is a name without '/', or a directory part, a '/' and a name
    without '/'. *)
Lemma last_slash_decomposition p :
  free_of "/" p ∨ ∃ dir name, p = dir +:+ String "/" name ∧ free_of "/" name.
Proof.
  induction p as [|c p IH]; [by left|].
  destruct IH as [Hfree|(dir & name & -> & Hname)].
  - destruct (Ascii.eqb_spec c "/") as [->|Hc].
    + right. by exists EmptyString, p.
    + by left.
  - right. by exists (String c dir), name.
Qed.

Lemma free_of_get c s i : free_of c s → String.get i s ≠ Some c.
Proof.
  revert i. induction s as [|a s IH]; intros i; cbn [free_of String.get]; [done|].
  intros [Ha Hs]. destruct i as [|i]; [congruence|by apply IH].
Qed.

Lemma get_map_chars f s i c :
  String.get i s = Some c → String.get i (map_chars f s) = Some (f c).
Proof.
  revert i. induction s as [|a s IH]; intros i; cbn [map_chars String.get]; [done|].
  destruct i as [|i]; [by intros [= ->]|apply IH].
Qed.

(** The replacer on a directory part, a '/' and a name without '/'. *)
Lemma space_replacer_dir_name dir name :
  free_of "/" name →
  space_replacer (dir +:+ String "/" name)
  = Ok (dir +:+ String "/" (replace " " "-" name)).
Proof.
  intros Hname.
  assert (Hsplit : split "/" (dir +:+ String "/" name) = split "/" dir ++ [name]).
  { by rewrite split_app, (split_free_part "/" name). }
  assert (Ht : truthy (dir +:+ String "/" name) = true) by (by destruct dir).
  rewrite (space_replacer_segments _ _ _ Ht Hsplit).
  rewrite join_app by (done || apply split_not_nil).
  by rewrite join_split.
Qed.

(** C3: a non-empty path is a directory part, which is empty or ends in
    '/', followed by a final segment without '/'.  The replacer returns the
    same directory part, character for character, followed by a final
    segment of the same length in which every space of the original has
    become a hyphen and every other character is the original one. *)
Theorem space_replacer_final_segment_only (p : string) :
  p ≠ EmptyString →
  ∃ dirs final hyphened,
    p = dirs +:+ final
    ∧ (dirs = EmptyString ∨ ∃ d, dirs = d +:+ "/")
    ∧ (∀ i, String.get i final ≠ Some "/"%char)
    ∧ space_replacer p = Ok (dirs +:+ hyphened)
    ∧ String.length hyphened = String.length final
    ∧ ∀ i c, String.get i final = Some c →
             String.get i hyphened
             = Some (if Ascii.eqb c " " then "-"%char else c).
Proof.
  intros Hp.
  assert (Hhyph : ∀ name,
             String.length (replace " " "-" name) = String.length name
             ∧ ∀ i c, String.get i name = Some c →
                      String.get i (replace " " "-" name)
                      = Some (if Ascii.eqb c " " then "-"%char else c)).
  { intros name. split; [apply length_map_chars|].
    intros i c. apply get_map_chars. }
  destruct (last_slash_decomposition p) as [Hfree|(dir & name & -> & Hname)].
  - exists EmptyString, p, (replace " " "-" p).
    split; [done|]. split; [by left|].
    split; [intros i; by apply free_of_get|].
    split; [|apply Hhyph].
    apply truthy_true_iff in Hp.
    rewrite (space_replacer_segments p [] p Hp); [done|].
    by apply split_free_part.
  - exists (dir +:+ "/"), name, (replace " " "-" name).
    split; [by rewrite str_app_assoc|]. split; [right; by exists dir|].
    split; [intros i; by apply free_of_get|].
    split; [|apply Hhyph].
    rewrite space_replacer_dir_name by done. by rewrite str_app_assoc.
Qed.

End FinalSegment.

(** ** More on the turns of the loop *)

Section TurnFacts.
Context `{Collaborators}.

(** The turn by cases on the stripped line. *)
Lemma handle_line_cases l line w :
  let url := PyStr.strip line in
  let echo := PrintLine ("Input: " +:+ url) in
  handle_line l line w
  = if negb (PyStr.truthy url) then (Ok Continue, w)
    else if is_exit_command url then (Ok Break, after [echo] w)
    else if is_help_command url then
      (Ok Continue,
       after (echo
              :: map PrintLine
                   (help_lines
                      (if truthy (use_artist_album_structure l)
                       then "artist/album" else "default")
                      (if truthy (replace_spaces l) then "hyphens" else "none")
                      (py_str (default (VStr "mp3") (settings w !! "format")))))
             w)
    else if is_album_link url then process_album l url (after [echo] w)
    else (Ok Continue,
          after [echo; LogError "Currently only supporting Spotify album links"] w).
Proof.
  intros url echo.
  destruct (PyStr.truthy url) eqn:Ht; cbn [negb].
  - destruct (is_exit_command url) eqn:Hx.
    + unfold handle_line. fold url. rewrite Ht, Hx. cbn [negb].
      unfold print_line. by steps.
    + destruct (is_help_command url) eqn:Hh.
      * by rewrite (handle_line_help l line w url eq_refl Hh).
      * rewrite (handle_line_url l line w url eq_refl Ht Hx Hh).
        destruct (is_album_link url); [done|]. by steps.
  - unfold handle_line. fold url. by rewrite Ht.
Qed.

(** The download branch up to the resolver: either one of the five settings
    is missing, and the branch stops there, or all five are read. *)
Lemma process_album_settings l url w :
  (∃ k, k ∈ resolver_settings
        ∧ settings w !! k = None
        ∧ process_album l url w
          = (Raise (KeyError k),
             after [LogInfo ("Processing album: " +:+ url)] w))
  ∨ (∃ a b c d e,
       settings w !! "ytm_data" = Some a
       ∧ settings w !! "playlist_numbering" = Some b
       ∧ settings w !! "ignore_albums" = Some c
       ∧ settings w !! "album_type" = Some d
       ∧ settings w !! "playlist_retain_track_cover" = Some e).
Proof.
  assert (Hstop : ∀ k (rest : value → M ctl) w0,
             settings w = settings w0 → settings w !! k = None →
             bind (settings_item k) rest w0 = (Raise (KeyError k), w0)).
  { intros k rest w0 Hw Hk. apply bind_settings_item_none. by rewrite <- Hw. }
  unfold resolver_settings.
  destruct (settings w !! "ytm_data") as [a|] eqn:Ha.
  2: { left. exists "ytm_data". split; [set_solver|]. split; [done|].
       unfold process_album. steps. by rewrite Hstop. }
  destruct (settings w !! "playlist_numbering") as [b|] eqn:Hb.
  2: { left. exists "playlist_numbering". split; [set_solver|]. split; [done|].
       unfold process_album. steps. by rewrite Hstop. }
  destruct (settings w !! "ignore_albums") as [c|] eqn:Hc.
  2: { left. exists "ignore_albums". split; [set_solver|]. split; [done|].
       unfold process_album. steps. by rewrite Hstop. }
  destruct (settings w !! "album_type") as [d|] eqn:Hd.
  2: { left. exists "album_type". split; [set_solver|]. split; [done|].
       unfold process_album. steps. by rewrite Hstop. }
  destruct (settings w !! "playlist_retain_track_cover") as [e|] eqn:He.
  2: { left. exists "playlist_retain_track_cover".
       split; [set_solver|]. split; [done|].
       unfold process_album. steps. by rewrite Hstop. }
  right. by exists a, b, c, d, e.
Qed.

Lemma call_method_only_downloads m s p : preserves only_downloads (call_method m s p).
Proof.
  exact (preserves_call_method _ only_downloads_refl only_downloads_trans
           only_downloads_emit m s p).
Qed.

(** The batch makes its calls through the attribute, which no call changes:
    it is the batch in which every call goes to the method found at the
    start. *)
Lemma run_batch_plain b w :
  run_batch b w = run_batch_via (call_method (download_song_to_file w)) b w.
Proof.
  revert w. induction b as [v|e|s p k IH]; intros w;
    cbn [run_batch run_batch_via]; [done..|].
  rewrite bind_get_method.
  destruct (call_method (download_song_to_file w) s p w) as [r w1] eqn:E.
  apply call_method_only_downloads in E as (_ & Hm & _).
  by rewrite IH, Hm.
Qed.

(** X14: when one of the five settings read for the resolver is missing,
    the download branch raises KeyError for a missing key right after its
    log line: the resolver is not called, nothing is downloaded, and the
    settings, the method attribute and the input are as they were. *)
Theorem missing_resolver_setting_raises l url w :
  (∃ k, k ∈ resolver_settings ∧ settings w !! k = None) →
  ∃ k, k ∈ resolver_settings
       ∧ settings w !! k = None
       ∧ process_album l url w
         = (Raise (KeyError k),
            World (settings w) (download_song_to_file w) (stdin w)
                  (trace w ++ [LogInfo ("Processing album: " +:+ url)])).
Proof.
  intros (k & Hk & Hnone).
  destruct (process_album_settings l url w) as [Hmiss|(a & b & c & d & e & Hall)];
    [done|].
  exfalso. unfold resolver_settings in Hk.
  rewrite !elem_of_cons, elem_of_nil in Hk.
  destruct Hall as (Ha & Hb & Hc & Hd & He).
  destruct Hk as [->|[->|[->|[->|[->|[]]]]]]; congruence.
Qed.

(** What the download branch does to the method attribute. *)
Lemma process_album_method l url w r w1 :
  process_album l url w = (r, w1) →
  match r with
  | Ok _ => download_song_to_file w1 = download_song_to_file w
  | Raise _ =>
      download_song_to_file w1 = download_song_to_file w
      ∨ (truthy (replace_spaces l) = true
         ∧ download_song_to_file w1 = WrapperMethod (download_song_to_file w))
  end.
Proof.
  destruct (process_album_settings l url w)
    as [(k & _ & _ & ->)|(a & b & c & d & e & Ha & Hb & Hc & Hd & He)].
  { intros [= <- <-]. by left. }
  destruct (get_simple_songs [url] a b c d e) as [songs|err] eqn:Hsongs.
  2: { rewrite (process_album_unresolved l url w a b c d e err) by done.
       intros [= <- <-]. by left. }
  rewrite (process_album_resolved l url w a b c d e songs) by done. cbv zeta.
  destruct (truthy (replace_spaces l)).
  - destruct (run_batch _ _) as [[v|err] wb] eqn:Eb.
    + by intros [= <- <-].
    + intros [= <- <-]. right. split; [done|].
      by apply run_batch_only_downloads in Eb as (_ & -> & _).
  - destruct (run_batch _ _) as [[v|err] wb] eqn:Eb;
      apply run_batch_only_downloads in Eb as (_ & Hm & _);
      intros [= <- <-]; [done|by left].
Qed.

(** X7: a turn that ends without raising leaves the method attribute of
    the downloader as it found it; a turn that raises leaves it as it found
    it or, under [replace_spaces] only, wrapped once. *)
Theorem turn_keeps_or_wraps_method l w r w1 :
  loop_body l w = (r, w1) →
  match r with
  | Ok _ => download_song_to_file w1 = download_song_to_file w
  | Raise _ =>
      download_song_to_file w1 = download_song_to_file w
      ∨ (truthy (replace_spaces l) = true
         ∧ download_song_to_file w1 = WrapperMethod (download_song_to_file w))
  end.
Proof.
  destruct (stdin w) as [|[text|] rest] eqn:Hin.
  - rewrite loop_body_eof by done. by intros [= <- <-].
  - rewrite (loop_body_line _ _ _ _ Hin), handle_line_cases. cbv zeta.
    destruct (negb _); [by intros [= <- <-]|].
    destruct (is_exit_command _); [by intros [= <- <-]|].
    destruct (is_help_command _); [by intros [= <- <-]|].
    destruct (is_album_link _); [|by intros [= <- <-]].
    intros Hrun. by apply process_album_method in Hrun.
  - rewrite (loop_body_interrupt _ _ _ Hin). intros [= <- <-]. by left.
Qed.

(** X5: under [replace_spaces], when the batch of a resolved album raises,
    the download branch raises the same error and the wrapper stays on the
    downloader: line 142 is not reached.  The teardown leaves it there and
    removes the replacer from the settings, after which the wrapper hands
    every call to the method it replaced with the path as it is. *)
Theorem failed_batch_leaves_wrapper l url w a b c d e songs err w1 :
  truthy (replace_spaces l) = true →
  settings w !! "ytm_data" = Some a →
  settings w !! "playlist_numbering" = Some b →
  settings w !! "ignore_albums" = Some c →
  settings w !! "album_type" = Some d →
  settings w !! "playlist_retain_track_cover" = Some e →
  get_simple_songs [url] a b c d e = Ok songs →
  process_album l url w = (Raise err, w1) →
  download_song_to_file w1 = WrapperMethod (download_song_to_file w)
  ∧ ∃ w2, teardown l w1 = (Ok tt, w2)
          ∧ download_song_to_file w2 = WrapperMethod (download_song_to_file w)
          ∧ settings w2 !! "space_replacer" = None
          ∧ ∀ s p, call_method (download_song_to_file w2) s p w2
                   = call_method (download_song_to_file w) s p w2.
Proof.
  intros Hr Ha Hb Hc Hd He Hsongs.
  rewrite (process_album_resolved l url w a b c d e songs) by done. cbv zeta.
  rewrite Hr.
  destruct (run_batch _ _) as [[v|err'] wb] eqn:Eb; [done|].
  intros [= <- <-].
  apply run_batch_only_downloads in Eb as (_ & Hm & _).
  cbn [download_song_to_file with_method] in Hm.
  split; [done|].
  destruct (teardown_spec l wb) as (w2 & Htd & Hset & Hm2 & _).
  exists w2. split; [done|].
  assert (Hgone : settings w2 !! "space_replacer" = None).
  { rewrite Hset. unfold restored. rewrite Hr. apply lookup_delete_eq. }
  split; [by rewrite Hm2|]. split; [done|].
  intros s p. rewrite Hm2, Hm. cbn [call_method].
  unfold download_song_to_file_wrapper.
  rewrite bind_settings_contains, Hgone.
  rewrite bool_decide_eq_false_2 by (by intros [? ?]).
  rewrite andb_false_r. by steps.
Qed.

(** X6: without [replace_spaces], the download branch for a resolved album
    runs the batch so that every single-song call reaches the method found
    on the downloader with the path as the batch gave it, and the method is
    still there afterwards, whether the batch returned or raised. *)
Theorem plain_batch_keeps_paths l url w a b c d e songs :
  truthy (replace_spaces l) = false →
  settings w !! "ytm_data" = Some a →
  settings w !! "playlist_numbering" = Some b →
  settings w !! "ignore_albums" = Some c →
  settings w !! "album_type" = Some d →
  settings w !! "playlist_retain_track_cover" = Some e →
  get_simple_songs [url] a b c d e = Ok songs →
  let original := download_song_to_file w in
  let w0 := after [LogInfo ("Processing album: " +:+ url);
                   Resolve [url] a b c d e; DownloadMany songs] w in
  process_album l url w
  = match run_batch_via (call_method original)
            (download_multiple_songs songs) w0 with
    | (Ok _, w1) => (Ok Continue, w1)
    | (Raise err, w1) => (Raise err, w1)
    end
  ∧ ∀ r w1, process_album l url w = (r, w1) → download_song_to_file w1 = original.
Proof.
  intros Hr Ha Hb Hc Hd He Hsongs original w0.
  assert (Hrun : process_album l url w
                 = match run_batch (download_multiple_songs songs) w0 with
                   | (Ok _, w1) => (Ok Continue, w1)
                   | (Raise err, w1) => (Raise err, w1)
                   end).
  { rewrite (process_album_resolved l url w a b c d e songs) by done.
    cbv zeta. by rewrite Hr. }
  split.
  - by rewrite Hrun, run_batch_plain.
  - intros r w1. rewrite Hrun.
    destruct (run_batch _ w0) as [[v|err] wb] eqn:Eb;
      apply run_batch_only_downloads in Eb as (_ & Hm & _);
      by intros [= <- <-].
Qed.

Lemma same_stdin_refl w : same_stdin w w.
Proof. done. Qed.

Lemma same_stdin_trans w1 w2 w3 :
  same_stdin w1 w2 → same_stdin w2 w3 → same_stdin w1 w3.
Proof. unfold same_stdin. congruence. Qed.

Lemma same_stdin_emit e : preserves same_stdin (emit e).
Proof. intros w r w1 [= <- <-]. done. Qed.

Lemma same_stdin_set_method m : preserves same_stdin (set_method m).
Proof. intros w r w1 [= <- <-]. done. Qed.

Lemma handle_line_same_stdin l line : preserves same_stdin (handle_line l line).
Proof.
  exact (preserves_handle_line _ same_stdin_refl same_stdin_trans
           same_stdin_emit same_stdin_set_method l line).
Qed.

Lemma loop_body_stdin_tail l w r w1 :
  loop_body l w = (r, w1) → stdin w1 = tail (stdin w).
Proof.
  destruct (stdin w) as [|[text|] rest] eqn:Hin.
  - rewrite loop_body_eof by done. by intros [= <- <-].
  - rewrite (loop_body_line _ _ _ _ Hin). intros Hrun.
    by apply handle_line_same_stdin in Hrun.
  - rewrite (loop_body_interrupt _ _ _ Hin). by intros [= <- <-].
Qed.

(** X8: a turn takes exactly one event from the input, whatever it does
    with it: neither the help, nor a download, nor a failure reads any
    further, and at end-of-file nothing is taken. *)
Theorem turn_reads_one_line l w r w1 :
  loop_body l w = (r, w1) → stdin w1 = tail (stdin w).
Proof. apply loop_body_stdin_tail. Qed.

Lemma process_album_extends_trace l url :
  preserves extends_trace (process_album l url).
Proof.
  exact (preserves_process_album _ extends_trace_refl extends_trace_trans
           extends_trace_emit extends_trace_set_method l url).
Qed.

(** X9: a line that is not empty once stripped is echoed as
    [Input: <stripped line>] right after the prompt, before anything else
    the turn does, commands and rejected lines included. *)
Theorem nonblank_line_is_echoed l w text rest r w1 :
  stdin w = Line text :: rest →
  PyStr.truthy (PyStr.strip text) = true →
  loop_body l w = (r, w1) →
  ∃ evs, trace w1
         = trace w
           ++ [StdoutWrite "> "; StdoutFlush;
               PrintLine ("Input: " +:+ PyStr.strip text)]
           ++ evs.
Proof.
  intros Hin Ht. rewrite (loop_body_line _ _ _ _ Hin), handle_line_cases.
  cbv zeta. rewrite Ht. cbn [negb].
  assert (Hpre : ∀ evs,
             trace (after (PrintLine ("Input: " +:+ PyStr.strip text) :: evs)
                      (prompted rest w))
             = trace w ++ [StdoutWrite "> "; StdoutFlush;
                           PrintLine ("Input: " +:+ PyStr.strip text)] ++ evs).
  { intros evs. unfold after, prompted. cbn. by rewrite <- app_assoc. }
  destruct (is_exit_command _).
  { intros [= <- <-]. exists []. apply Hpre. }
  destruct (is_help_command _).
  { intros [= <- <-]. eexists. apply Hpre. }
  destruct (is_album_link _).
  - intros Hrun. apply process_album_extends_trace in Hrun as [evs Hevs].
    exists evs. rewrite Hevs, (Hpre []). by rewrite <- !app_assoc.
  - intros [= <- <-]. eexists. apply Hpre.
Qed.

Lemma non_album_turn l w text rest :
  stdin w = Line text :: rest →
  is_album_link (PyStr.strip text) = false →
  ∃ c evs,
    loop_body l w
    = (Ok c, World (settings w) (download_song_to_file w) rest (trace w ++ evs))
    ∧ Forall is_console_event evs
    ∧ (c = Break ↔ is_exit_command (PyStr.strip text) = true).
Proof.
  intros Hin Hl. rewrite (loop_body_line _ _ _ _ Hin), handle_line_cases.
  cbv zeta. rewrite Hl.
  assert (Hw : ∀ evs, after evs (prompted rest w)
                      = World (settings w) (download_song_to_file w) rest
                          (trace w ++ [StdoutWrite "> "; StdoutFlush] ++ evs)).
  { intros evs. apply after_prompted. }
  destruct (PyStr.truthy (PyStr.strip text)) eqn:Ht; cbn [negb].
  - destruct (is_exit_command _) eqn:Hx; [|destruct (is_help_command _)].
    + eexists Break, _. rewrite Hw. split; [done|].
      split; [by repeat constructor|done].
    + eexists Continue, _. rewrite Hw. split; [done|]. split; [|done].
      repeat (apply Forall_cons; split; [done|]).
      unfold help_lines. cbn [map].
      repeat (apply Forall_cons; split; [done|]). done.
    + eexists Continue, _. rewrite Hw. split; [done|].
      split; [by repeat constructor|done].
  - exists Continue, [StdoutWrite "> "; StdoutFlush].
    split; [done|]. split; [by repeat constructor|].
    split; [done|]. intros Hx. apply exit_is_nonempty in Hx. congruence.
Qed.

(** X10: a line that is not taken for an album link never makes the turn
    raise and never reaches a collaborator: the turn only prints and logs,
    leaves the settings and the method attribute as they were, and leaves
    the loop exactly when the line is [exit] or [quit]. *)
Theorem non_album_line_is_harmless l w text rest :
  stdin w = Line text :: rest →
  is_album_link (PyStr.strip text) = false →
  ∃ c evs,
    loop_body l w
    = (Ok c, World (settings w) (download_song_to_file w) rest (trace w ++ evs))
    ∧ Forall is_console_event evs
    ∧ (c = Break ↔ is_exit_command (PyStr.strip text) = true).
Proof. apply non_album_turn. Qed.

End TurnFacts.

(** ** More on sessions *)

Section SessionFacts.
Context `{Collaborators}.

Lemma while_true_more_fuel (body : M ctl) fuel fuel' w x :
  while_true fuel body w = Some x → (fuel ≤ fuel')%nat →
  while_true fuel' body w = Some x.
Proof.
  revert fuel' w. induction fuel as [|fuel IH]; intros fuel' w; [done|].
  intros Hrun Hle. destruct fuel' as [|fuel']; [lia|].
  cbn [while_true] in *. destruct (body w) as [[[]|e] w0]; [|done..].
  apply IH; [done|lia].
Qed.

(** The loop is over by the turn that reads a stopping event. *)
Lemma loop_ends_at_stop l w pre ev post :
  stdin w = pre ++ ev :: post →
  stops ev = true →
  ∃ r w1, while_true (S (length pre)) (loop_body l) w = Some (r, w1).
Proof.
  revert w. induction pre as [|h pre IH]; intros w Hin Hstop.
  - cbn [app] in Hin. cbn [while_true length].
    destruct ev as [text|]; cbn [stops] in Hstop.
    + rewrite (loop_body_line _ _ _ _ Hin), handle_line_cases. cbv zeta.
      rewrite (exit_is_nonempty _ Hstop), Hstop. cbn [negb]. eauto.
    + rewrite (loop_body_interrupt _ _ _ Hin). eauto.
  - cbn [length]. cbn [while_true].
    destruct (loop_body l w) as [[[]|e] w0] eqn:Hturn; [|eauto..].
    apply loop_body_stdin_tail in Hturn. rewrite Hin in Hturn. cbn in Hturn.
    by apply IH.
Qed.

(** X11: when the input holds an interrupt or a line that is [exit] or
    [quit], a session that gets past line 34 comes to an end, at the
    latest in the turn that reads it, whatever the lines before it and the
    collaborators do; more turns allowed change nothing to the outcome. *)
Theorem session_ends_at_stop query w pre ev post :
  is_Some (settings w !! "output") →
  stdin w = pre ++ ev :: post →
  stops ev = true →
  ∃ r w1, ∀ fuel, (S (length pre) ≤ fuel)%nat →
                  pconsole query fuel w = Some (r, w1).
Proof.
  intros [v Hout] Hin Hstop. unfold pconsole.
  destruct (setup_spec w v Hout) as (w0 & -> & _ & _ & Hin0).
  rewrite Hin in Hin0.
  destruct (loop_ends_at_stop
              (Locals (flag w "structured") (flag w "replace_spaces") v)
              w0 pre ev post Hin0 Hstop) as (r & w1 & Hloop).
  destruct (handle_interrupt r w1) as [r1 w2] eqn:Hh.
  destruct (teardown_spec
              (Locals (flag w "structured") (flag w "replace_spaces") v) w2)
    as (w3 & Htd & _).
  exists r1, w3. intros fuel Hfuel. unfold session.
  rewrite (while_true_more_fuel _ _ fuel _ _ Hloop Hfuel).
  by rewrite Hh, Htd.
Qed.

Lemma idle_turn l w text rest :
  stdin w = Line text :: rest →
  idle (Line text) = true →
  ∃ w1, loop_body l w = (Ok Continue, w1) ∧ stdin w1 = rest.
Proof.
  intros Hin Hidle. cbn [idle] in Hidle.
  apply andb_true_iff in Hidle as [Hx%negb_true_iff Hl%negb_true_iff].
  destruct (non_album_turn l w text rest Hin Hl)
    as (c & evs & Hturn & _ & Hc).
  rewrite Hturn. destruct c.
  - eauto.
  - rewrite (proj1 Hc eq_refl) in Hx. discriminate.
Qed.

Lemma idle_loop_forever l fuel w :
  Forall (λ ev, idle ev = true) (stdin w) →
  while_true fuel (loop_body l) w = None.
Proof.
  revert w. induction fuel as [|fuel IH]; intros w Hidle; [done|].
  cbn [while_true].
  destruct (stdin w) as [|[text|] rest] eqn:Hin.
  - rewrite loop_body_eof by done. by apply IH.
  - apply Forall_cons in Hidle as [Hi Hrest].
    destruct (idle_turn l w text rest Hin Hi) as (w1 & -> & Hin1).
    apply IH. by rewrite Hin1.
  - apply Forall_cons in Hidle as [Hi _]. done.
Qed.

(** X12: on an input without interrupt in which no line is [exit] or
    [quit] and no line is taken for an album link, a session that gets
    past line 34 never comes to an end: once the lines are read, the loop
    goes on prompting at end-of-file. *)
Theorem session_without_stop_never_ends query fuel w :
  is_Some (settings w !! "output") →
  Forall (λ ev, idle ev = true) (stdin w) →
  pconsole query fuel w = None.
Proof.
  intros [v Hout] Hidle. unfold pconsole.
  destruct (setup_spec w v Hout) as (w0 & -> & _ & _ & Hin0).
  unfold session. rewrite idle_loop_forever; [done|]. by rewrite Hin0.
Qed.

Lemma setup_raises_only_key_error w e w1 :
  setup w = (Raise e, w1) → e = KeyError "output" ∧ w1 = w.
Proof.
  destruct (settings w !! "output") as [v|] eqn:Hout.
  - by destruct (setup_spec w v Hout) as (w0 & -> & _).
  - rewrite setup_no_output by done. by intros [= <- <-].
Qed.

(** X13: KeyboardInterrupt and EOFError never reach the caller of pconsole,
    wherever they were raised: while reading or inside a collaborator. *)
Theorem interrupts_never_reach_caller query fuel w r w1 :
  pconsole query fuel w = Some (r, w1) →
  r ≠ Raise KeyboardInterrupt ∧ r ≠ Raise EOFError.
Proof.
  unfold pconsole.
  destruct (setup w) as [[l|e] w0] eqn:Hsetup.
  - unfold session.
    destruct (while_true fuel _ w0) as [[r0 w2]|]; [|done].
    destruct (teardown_spec l (handle_interrupt r0 w2).2) as (w3 & Htd & _).
    destruct (handle_interrupt r0 w2) as [r1 w4] eqn:Hh. cbn [snd] in Htd.
    rewrite Htd. intros [= <- <-].
    destruct r0 as [[]|[]]; cbn [handle_interrupt] in Hh;
      injection Hh as <- _; done.
  - apply setup_raises_only_key_error in Hsetup as [-> ->].
    by intros [= <- <-].
Qed.

(** X15: without an [output] entry in the settings, pconsole raises
    KeyError for [output] at once: nothing is printed or logged, no setting
    is changed, no line is read. *)
Theorem missing_output_raises_at_once query fuel w :
  settings w !! "output" = None →
  pconsole query fuel w = Some (Raise (KeyError "output"), w).
Proof. intros Hout. unfold pconsole. by rewrite setup_no_output. Qed.

(** X16: at the end of a session that got past line 34, every entry of the
    settings other than [space_replacer] is what it was before the session,
    whatever ended the loop; when there was no [space_replacer] entry
    before, the settings are those found, entry for entry. *)
Theorem session_leaves_other_settings query fuel w r w1 :
  is_Some (settings w !! "output") →
  pconsole query fuel w = Some (r, w1) →
  (∀ key, key ≠ "space_replacer" → settings w1 !! key = settings w !! key)
  ∧ (settings w !! "space_replacer" = None → settings w1 = settings w).
Proof.
  intros [v Hout] Hrun.
  rewrite (pconsole_settings _ _ _ _ _ _ Hout Hrun).
  destruct (truthy (flag w "replace_spaces")); [|done].
  split.
  - intros key Hkey. by rewrite lookup_delete_ne.
  - apply delete_id.
Qed.

(** X17: the flags are off when their entries are missing: with neither
    [structured] nor [replace_spaces] in the settings, the setup changes no
    setting, logs nothing and prints the three lines of the banner, without
    the line of active options. *)
Theorem flags_default_off w v :
  settings w !! "output" = Some v →
  settings w !! "structured" = None →
  settings w !! "replace_spaces" = None →
  setup w
  = (Ok (Locals (VBool false) (VBool false) v),
     World (settings w) (download_song_to_file w) (stdin w)
       (trace w
        ++ [PrintLine "Welcome to spotDL pconsole. Enter Spotify URLs to download (Ctrl+D to exit).";
            PrintLine "Currently supporting album links only.";
            PrintLine "Type 'help' to see available commands."])).
Proof.
  intros Hout Hs Hr. unfold setup.
  rewrite !bind_settings_get, Hs, Hr. cbn [default].
  rewrite (bind_settings_item _ v) by done.
  cbn [truthy when app]. unfold print_line. by steps.
Qed.

(** X18: the teardown never raises, touches neither the method attribute
    nor the input nor the trace, and run a second time changes nothing. *)
Theorem teardown_never_raises l w :
  ∃ w1, teardown l w = (Ok tt, w1)
        ∧ download_song_to_file w1 = download_song_to_file w
        ∧ stdin w1 = stdin w
        ∧ trace w1 = trace w
        ∧ teardown l w1 = (Ok tt, w1).
Proof.
  destruct (teardown_spec l w) as (w1 & Htd & Hs & Hm & Hi & Ht).
  exists w1. do 4 (split; [done|]).
  destruct (teardown_spec l w1) as (w2 & Htd2 & Hs2 & Hm2 & Hi2 & Ht2).
  rewrite Htd2. f_equal.
  destruct w1 as [s1 m1 i1 t1], w2 as [s2 m2 i2 t2]. cbn in *.
  subst. f_equal. unfold restored.
  destruct (truthy (use_artist_album_structure l));
    destruct (truthy (replace_spaces l)); try done.
  all: apply map_eq; intros k.
  all: destruct (decide (k = "output")) as [->|];
    [|destruct (decide (k = "space_replacer")) as [->|]];
    by simplify_map_eq.
Qed.

End SessionFacts.

(** ** The link test *)

Section LinkTest.
Import PyStr.

Lemma starts_with_app p s : starts_with p (p +:+ s) = true.
Proof.
  induction p as [|c p IH]; [done|].
  rewrite str_app_cons. cbn [starts_with]. by rewrite Ascii.eqb_refl.
Qed.

Lemma contains_here p s : contains p (p +:+ s) = true.
Proof. destruct (p +:+ s) eqn:E; cbn [contains]; by rewrite <- E, starts_with_app. Qed.

Lemma contains_after a p s : contains p s = true → contains p (a +:+ s) = true.
Proof.
  intros Hs. induction a as [|c a IH]; [done|].
  rewrite str_app_cons. cbn [contains]. rewrite IH. apply orb_true_r.
Qed.

Lemma contains_inside a p s : contains p (a +:+ p +:+ s) = true.
Proof. apply contains_after, contains_here. Qed.

(** X19: the link test is a substring test and no more: a line that holds
    [album] and [open.spotify.com] anywhere, in either order, is taken for
    an album link, whatever stands around them. *)
Theorem link_test_is_substring_test a b c :
  is_album_link (a +:+ "album" +:+ b +:+ "open.spotify.com" +:+ c) = true
  ∧ is_album_link (a +:+ "open.spotify.com" +:+ b +:+ "album" +:+ c) = true.
Proof.
  unfold is_album_link. split; apply andb_true_iff; split.
  - apply contains_inside.
  - do 2 apply contains_after. apply contains_inside.
  - do 2 apply contains_after. apply contains_inside.
  - apply contains_inside.
Qed.

End LinkTest.

(** ** The properties at work on concrete sessions *)

#[local] Existing Instance demo_collaborators.

(** Three sessions under -s and -r: one ended by [quit] after an album,
    one by an interrupt, one by a failure of the resolver. *)
Lemma session_end_restores_settings_witness :
  let s := <["structured" := VBool true]>
             (<["replace_spaces" := VBool true]> demo_settings) in
  let ended (input : list stdin_event) :=
    ∃ r w1, pconsole [] 5 (demo_world s input) = Some (r, w1)
            ∧ settings w1 !! "output"
              = Some (VStr "{artists} - {title}.{output-ext}")
            ∧ settings w1 !! "space_replacer" = None in
  s !! "space_replacer" = None
  ∧ ended [Line "https://open.spotify.com/album/xyz"; Line "quit"]
  ∧ ended [Line "help"; Interrupt]
  ∧ ended [Line "https://open.spotify.com/album/gone"; Line "quit"].
Proof.
  intros s ended.
  assert (Hsr : s !! "space_replacer" = None) by reflexivity.
  assert (Hended : ∀ input,
             pconsole [] 5 (demo_world s input) ≠ None → ended input).
  { intros input Hsome.
    destruct (pconsole [] 5 (demo_world s input)) as [[r w1]|] eqn:E; [|done].
    destruct (session_end_restores_settings [] 5 (demo_world s input) r w1 Hsr E)
      as [Hout Hgone].
    exists r, w1. split; [exact E|]. split; [|exact Hgone].
    rewrite Hout. reflexivity. }
  split; [exact Hsr|].
  repeat split; apply Hended; vm_compute; discriminate.
Defined.

Lemma space_replacer_final_segment_only_witness :
  "Artist Name/My Song.mp3" ≠ EmptyString
  ∧ space_replacer "Artist Name/My Song.mp3" = Ok "Artist Name/My-Song.mp3"
  ∧ ∃ dirs final hyphened,
      "Artist Name/My Song.mp3" = dirs +:+ final
      ∧ (dirs = EmptyString ∨ ∃ d, dirs = d +:+ "/")
      ∧ (∀ i, String.get i final ≠ Some "/"%char)
      ∧ space_replacer "Artist Name/My Song.mp3" = Ok (dirs +:+ hyphened)
      ∧ String.length hyphened = String.length final
      ∧ ∀ i c, String.get i final = Some c →
               String.get i hyphened
               = Some (if Ascii.eqb c " " then "-"%char else c).
Proof.
  split; [discriminate|]. split; [reflexivity|].
  apply (space_replacer_final_segment_only "Artist Name/My Song.mp3").
  discriminate.
Defined.

Lemma wrapper_rewrites_batch_paths_witness :
  let l := Locals (VBool false) (VBool true) (VStr "{artists} - {title}.{output-ext}") in
  let w := demo_world (<["space_replacer" := VFunc SpaceReplacer]> demo_settings) [] in
  let url := "https://open.spotify.com/album/xyz" in
  truthy (replace_spaces l) = true
  ∧ settings w !! "space_replacer" = Some (VFunc SpaceReplacer)
  ∧ get_simple_songs [url] (VBool false) (VBool false) VNone VNone (VBool false)
    = Ok ["My Song"; "Other Song"]
  ∧ process_album l url w
    = (Ok Continue,
       World (settings w) OriginalMethod []
         [LogInfo ("Processing album: " +:+ url);
          Resolve [url] (VBool false) (VBool false) VNone VNone (VBool false);
          DownloadMany ["My Song"; "Other Song"];
          DownloadOne "My Song" "Artist Name/My-Song.mp3";
          DownloadOne "Other Song" "Artist Name/Other-Song.mp3"])
  ∧ ∀ w1, process_album l url w = (Ok Continue, w1) →
          download_song_to_file w1 = OriginalMethod.
Proof.
  intros l w url.
  pose proof (wrapper_rewrites_batch_paths l url w
                (VBool false) (VBool false) VNone VNone (VBool false)
                ["My Song"; "Other Song"]
                eq_refl eq_refl eq_refl eq_refl eq_refl eq_refl eq_refl eq_refl)
    as (Hrun & _ & _ & Hback).
  split; [reflexivity|]. split; [reflexivity|]. split; [reflexivity|].
  split; [|exact Hback].
  rewrite Hrun. vm_compute. reflexivity.
Defined.

Lemma link_test_decides_witness :
  let l := Locals (VBool false) (VBool false) (VStr "{artists} - {title}.{output-ext}") in
  let w := demo_world demo_settings
             [Line "https://open.spotify.com/track/xyz"; Line "exit"] in
  let url := "https://open.spotify.com/track/xyz" in
  stdin w = [Line url; Line "exit"]
  ∧ PyStr.strip url = url
  ∧ PyStr.truthy url = true
  ∧ is_exit_command url = false
  ∧ is_help_command url = false
  ∧ ¬ (PyStr.contains "album" url = true
       ∧ PyStr.contains "open.spotify.com" url = true)
  ∧ loop_body l w
    = (Ok Continue,
       World demo_settings OriginalMethod [Line "exit"]
         [StdoutWrite "> "; StdoutFlush; PrintLine ("Input: " +:+ url);
          LogError "Currently only supporting Spotify album links"]).
Proof.
  intros l w url.
  assert (Hno : ¬ (PyStr.contains "album" url = true
                   ∧ PyStr.contains "open.spotify.com" url = true)).
  { intros [Ha _]. vm_compute in Ha. discriminate. }
  repeat (split; [first [reflexivity | exact Hno]|]).
  exact (proj1 (proj2 (link_test_decides l w url [Line "exit"] url
                         eq_refl eq_refl eq_refl eq_refl eq_refl) Hno)).
Defined.

Lemma album_link_resolved_then_downloaded_witness :
  let l := Locals (VBool false) (VBool false) (VStr "{artists} - {title}.{output-ext}") in
  let url := "https://open.spotify.com/album/xyz" in
  let w := demo_world demo_settings [Line url] in
  stdin w = [Line url]
  ∧ is_album_link url = true
  ∧ settings w !! "ytm_data" = Some (VBool false)
  ∧ ∃ r w1 evs,
      loop_body l w = (r, w1)
      ∧ trace w1
        = trace w
          ++ [StdoutWrite "> "; StdoutFlush; PrintLine ("Input: " +:+ url);
              LogInfo ("Processing album: " +:+ url);
              Resolve [url] (VBool false) (VBool false) VNone VNone (VBool false)]
          ++ evs
      ∧ match get_simple_songs [url] (VBool false) (VBool false) VNone VNone
                (VBool false) with
        | Ok songs =>
            ∃ downloads,
              evs = DownloadMany songs :: downloads
              ∧ Forall is_download_one downloads
        | Raise err => evs = [] ∧ r = Raise err
        end.
Proof.
  intros l url w.
  split; [reflexivity|]. split; [reflexivity|]. split; [reflexivity|].
  exact (album_link_resolved_then_downloaded l w url [] url
           (VBool false) (VBool false) VNone VNone (VBool false)
           eq_refl eq_refl eq_refl eq_refl eq_refl eq_refl
           eq_refl eq_refl eq_refl eq_refl eq_refl).
Defined.

Lemma structured_overrides_output_witness :
  let w := demo_world (<["structured" := VBool true]> demo_settings) [] in
  settings w !! "output" = Some (VStr "{artists} - {title}.{output-ext}")
  ∧ settings w !! "structured" = Some (VBool true)
  ∧ truthy (VBool true) = true
  ∧ ∃ l w1,
      setup w = (Ok l, w1)
      ∧ settings w1 !! "output" = Some (VStr "{artist}/{album}/{title}")
      ∧ original_output l = VStr "{artists} - {title}.{output-ext}"
      ∧ ∀ w2, ∃ w3, teardown l w2 = (Ok tt, w3)
                    ∧ settings w3 !! "output"
                      = Some (VStr "{artists} - {title}.{output-ext}").
Proof.
  intros w.
  split; [reflexivity|]. split; [reflexivity|]. split; [reflexivity|].
  exact (structured_overrides_output w _ (VBool true) eq_refl eq_refl eq_refl).
Defined.

Lemma blank_line_reprompts_witness :
  let l := Locals (VBool false) (VBool false) (VStr "{artists} - {title}.{output-ext}") in
  let w := demo_world demo_settings [Line "  "; Line "exit"] in
  stdin w = [Line "  "; Line "exit"]
  ∧ PyStr.strip "  " = EmptyString
  ∧ loop_body l w
    = (Ok Continue,
       World demo_settings OriginalMethod [Line "exit"]
             [StdoutWrite "> "; StdoutFlush]).
Proof.
  intros l w.
  split; [reflexivity|]. split; [reflexivity|].
  exact (proj1 (blank_line_reprompts l w "  " [Line "exit"] eq_refl eq_refl)).
Defined.

Lemma help_prints_block_witness :
  let l := Locals (VBool false) (VBool true) (VStr "{artists} - {title}.{output-ext}") in
  let w := demo_world demo_settings [Line "HELP"] in
  stdin w = [Line "HELP"]
  ∧ is_help_command (PyStr.strip "HELP") = true
  ∧ PrintLine "  Output format: flac"
    ∈ match loop_body l w with (_, w1) => trace w1 end.
Proof.
  intros l w.
  split; [reflexivity|]. split; [reflexivity|].
  pose proof (help_prints_block l w "HELP" [] eq_refl eq_refl) as (Hturn & Hin & _).
  rewrite Hturn. exact Hin.
Defined.

Lemma end_of_input_never_ends_session_witness :
  let w := demo_world demo_settings [] in
  is_Some (settings w !! "output")
  ∧ stdin w = []
  ∧ pconsole [] 1000 w = None.
Proof.
  intros w.
  assert (Hout : is_Some (settings w !! "output")).
  { eexists. vm_compute. reflexivity. }
  split; [exact Hout|]. split; [reflexivity|].
  exact (end_of_input_never_ends_session [] 1000 w Hout eq_refl).
Defined.

(** A whole session under -r, lines ending in a newline as [readline]
    returns them: the downloader's method receives the rewritten paths, and
    at the end the method is the downloader's own and the replacer is gone
    from the settings. *)
Example replace_spaces_session :
  ∃ w1, pconsole [] 3
          (demo_world (<["replace_spaces" := VBool true]> demo_settings)
             [Line ("https://open.spotify.com/album/xyz" +:+ nl);
              Line ("quit" +:+ nl)])
        = Some (Ok tt, w1)
        ∧ List.filter
            (λ ev, match ev with DownloadOne _ _ => true | _ => false end)
            (trace w1)
          = [DownloadOne "My Song" "Artist Name/My-Song.mp3";
             DownloadOne "Other Song" "Artist Name/Other-Song.mp3"]
        ∧ download_song_to_file w1 = OriginalMethod
        ∧ settings w1 !! "space_replacer" = None.
Proof.
  eexists. split; [vm_compute; reflexivity|].
  split; [|split]; vm_compute; reflexivity.
Qed.

(** The other ways out of the loop do end the session. *)
Example interrupt_says_farewell :
  ∃ w1, pconsole [] 1 (demo_world demo_settings [Interrupt]) = Some (Ok tt, w1)
        ∧ last (trace w1) = Some (PrintLine (nl +:+ "Exiting pconsole mode.")).
Proof. eexists. split; vm_compute; reflexivity. Qed.

Example exit_in_any_case :
  ∀ word, word ∈ ["exit"; "Exit"; "QUIT"] →
    ∃ w1, pconsole [] 1 (demo_world demo_settings [Line word]) = Some (Ok tt, w1).
Proof.
  intros word Hw. rewrite !elem_of_cons, elem_of_nil in Hw.
  destruct Hw as [->|[->|[->|[]]]]; eexists; vm_compute; reflexivity.
Qed.

Example failure_goes_to_the_caller :
  ∃ w1, pconsole [] 1
          (demo_world (<["replace_spaces" := VBool true]> demo_settings)
             [Line "https://open.spotify.com/album/gone"; Line "exit"])
        = Some (Raise (CollaboratorError "album not found"), w1)
        ∧ stdin w1 = [Line "exit"]
        ∧ settings w1 !! "space_replacer" = None.
Proof. eexists. split; [vm_compute; reflexivity|]. split; vm_compute; reflexivity. Qed.


(** ** Further properties at work *)

Lemma space_replacer_bare_name_witness :
  PyStr.free_of "/" "My Great Song.mp3"
  ∧ space_replacer "My Great Song.mp3" = Ok "My-Great-Song.mp3".
Proof.
  assert (Hfree : PyStr.free_of "/" "My Great Song.mp3").
  { cbn. repeat (split; [discriminate|]). exact I. }
  split; [exact Hfree|].
  exact (space_replacer_bare_name "My Great Song.mp3" Hfree).
Defined.

Lemma space_replacer_keeps_length_witness :
  space_replacer "Artist Name/My Song.mp3" = Ok "Artist Name/My-Song.mp3"
  ∧ String.length "Artist Name/My-Song.mp3"
    = String.length "Artist Name/My Song.mp3".
Proof.
  split; [reflexivity|].
  exact (space_replacer_keeps_length "Artist Name/My Song.mp3"
           "Artist Name/My-Song.mp3" eq_refl).
Defined.

Lemma failed_batch_leaves_wrapper_witness :
  let l := Locals (VBool false) (VBool true) (VStr "{artists} - {title}.{output-ext}") in
  let w := failing_world
             (<["space_replacer" := VFunc SpaceReplacer]> demo_settings) [] in
  let url := "https://open.spotify.com/album/xyz" in
  ∃ w1,
    truthy (replace_spaces l) = true
    ∧ @process_album failing_collaborators l url w
      = (Raise (CollaboratorError "download failed"), w1)
    ∧ download_song_to_file w1 = WrapperMethod OriginalMethod
    ∧ ∃ w2, teardown l w1 = (Ok tt, w2)
            ∧ download_song_to_file w2 = WrapperMethod OriginalMethod
            ∧ settings w2 !! "space_replacer" = None.
Proof.
  intros l w url.
  destruct (@process_album failing_collaborators l url w) as [r w1] eqn:E.
  assert (Hr : r = Raise (CollaboratorError "download failed")).
  { pose proof (f_equal fst E) as E1. vm_compute in E1. congruence. }
  subst r. exists w1. split; [reflexivity|]. split; [reflexivity|].
  destruct (@failed_batch_leaves_wrapper failing_collaborators l url w
              (VBool false) (VBool false) VNone VNone (VBool false)
              ["My Song"; "Other Song"] _ w1
              eq_refl eq_refl eq_refl eq_refl eq_refl eq_refl eq_refl E)
    as (Hm & w2 & Htd & Hm2 & Hgone & _).
  split; [exact Hm|]. exists w2. by repeat split.
Defined.

Lemma plain_batch_keeps_paths_witness :
  let l := Locals (VBool false) (VBool false) (VStr "{artists} - {title}.{output-ext}") in
  let w := demo_world demo_settings [] in
  let url := "https://open.spotify.com/album/xyz" in
  truthy (replace_spaces l) = false
  ∧ get_simple_songs [url] (VBool false) (VBool false) VNone VNone (VBool false)
    = Ok ["My Song"; "Other Song"]
  ∧ process_album l url w
    = (Ok Continue,
       World (settings w) OriginalMethod []
         [LogInfo ("Processing album: " +:+ url);
          Resolve [url] (VBool false) (VBool false) VNone VNone (VBool false);
          DownloadMany ["My Song"; "Other Song"];
          DownloadOne "My Song" "Artist Name/My Song.mp3";
          DownloadOne "Other Song" "Artist Name/Other Song.mp3"]).
Proof.
  intros l w url.
  pose proof (plain_batch_keeps_paths l url w
                (VBool false) (VBool false) VNone VNone (VBool false)
                ["My Song"; "Other Song"]
                eq_refl eq_refl eq_refl eq_refl eq_refl eq_refl eq_refl)
    as [Hrun _].
  split; [reflexivity|]. split; [reflexivity|].
  rewrite Hrun. vm_compute. reflexivity.
Defined.

Lemma turn_keeps_or_wraps_method_witness :
  let l := Locals (VBool false) (VBool true) (VStr "{artists} - {title}.{output-ext}") in
  let w := demo_world
             (<["space_replacer" := VFunc SpaceReplacer]> demo_settings)
             [Line "https://open.spotify.com/album/xyz"] in
  ∃ c w1, loop_body l w = (Ok c, w1)
          ∧ download_song_to_file w1 = download_song_to_file w.
Proof.
  intros l w.
  destruct (loop_body l w) as [r w1] eqn:E.
  assert (Hr : r = Ok Continue).
  { pose proof (f_equal fst E) as E1. vm_compute in E1. congruence. }
  subst r. exists Continue, w1. split; [reflexivity|].
  exact (turn_keeps_or_wraps_method l w (Ok Continue) w1 E).
Defined.

Lemma turn_reads_one_line_witness :
  let l := Locals (VBool false) (VBool false) (VStr "{artists} - {title}.{output-ext}") in
  let w := demo_world demo_settings
             [Line "https://open.spotify.com/album/xyz"; Line "help"; Line "exit"] in
  ∃ r w1, loop_body l w = (r, w1) ∧ stdin w1 = [Line "help"; Line "exit"].
Proof.
  intros l w.
  destruct (loop_body l w) as [r w1] eqn:E.
  exists r, w1. split; [reflexivity|].
  exact (turn_reads_one_line l w r w1 E).
Defined.

Lemma nonblank_line_is_echoed_witness :
  let l := Locals (VBool false) (VBool false) (VStr "{artists} - {title}.{output-ext}") in
  let w := demo_world demo_settings [Line "  Quit  "] in
  ∃ r w1 evs,
    PyStr.truthy (PyStr.strip "  Quit  ") = true
    ∧ loop_body l w = (r, w1)
    ∧ trace w1
      = trace w ++ [StdoutWrite "> "; StdoutFlush; PrintLine "Input: Quit"] ++ evs.
Proof.
  intros l w.
  destruct (loop_body l w) as [r w1] eqn:E.
  destruct (nonblank_line_is_echoed l w "  Quit  " [] r w1 eq_refl eq_refl E)
    as [evs Hevs].
  exists r, w1, evs. split; [reflexivity|]. split; [reflexivity|]. exact Hevs.
Defined.

Lemma non_album_line_is_harmless_witness :
  let l := Locals (VBool false) (VBool false) (VStr "{artists} - {title}.{output-ext}") in
  let w := demo_world demo_settings
             [Line "https://open.spotify.com/playlist/xyz"] in
  is_album_link (PyStr.strip "https://open.spotify.com/playlist/xyz") = false
  ∧ ∃ c evs,
      loop_body l w
      = (Ok c, World (settings w) (download_song_to_file w) [] (trace w ++ evs))
      ∧ Forall is_console_event evs
      ∧ (c = Break
         ↔ is_exit_command (PyStr.strip "https://open.spotify.com/playlist/xyz")
           = true).
Proof.
  intros l w. split; [reflexivity|].
  exact (non_album_line_is_harmless l w
           "https://open.spotify.com/playlist/xyz" [] eq_refl eq_refl).
Defined.

Lemma session_ends_at_stop_witness :
  let w := demo_world demo_settings
             [Line "help"; Line "https://open.spotify.com/album/xyz";
              Line "QUIT"; Line "never read"] in
  is_Some (settings w !! "output")
  ∧ stops (Line "QUIT") = true
  ∧ ∃ r w1, ∀ fuel, (3 ≤ fuel)%nat → pconsole [] fuel w = Some (r, w1).
Proof.
  intros w.
  assert (Hout : is_Some (settings w !! "output")).
  { eexists. vm_compute. reflexivity. }
  split; [exact Hout|]. split; [reflexivity|].
  exact (session_ends_at_stop [] w
           [Line "help"; Line "https://open.spotify.com/album/xyz"]
           (Line "QUIT") [Line "never read"] Hout eq_refl eq_refl).
Defined.

Lemma session_without_stop_never_ends_witness :
  let w := demo_world demo_settings
             [Line "help"; Line "https://open.spotify.com/track/xyz";
              Line "bye"] in
  is_Some (settings w !! "output")
  ∧ Forall (λ ev, idle ev = true) (stdin w)
  ∧ pconsole [] 500 w = None.
Proof.
  intros w.
  assert (Hout : is_Some (settings w !! "output")).
  { eexists. vm_compute. reflexivity. }
  assert (Hidle : Forall (λ ev, idle ev = true) (stdin w)).
  { repeat (apply Forall_cons; split; [reflexivity|]). apply Forall_nil_2. }
  split; [exact Hout|]. split; [exact Hidle|].
  exact (session_without_stop_never_ends [] 500 w Hout Hidle).
Defined.

Lemma interrupts_never_reach_caller_witness :
  let w := demo_world demo_settings [Line "help"; Interrupt] in
  ∃ r w1, pconsole [] 2 w = Some (r, w1)
          ∧ r ≠ Raise KeyboardInterrupt ∧ r ≠ Raise EOFError.
Proof.
  intros w.
  destruct (pconsole [] 2 w) as [[r w1]|] eqn:E; [|vm_compute in E; discriminate].
  exists r, w1. split; [reflexivity|].
  exact (interrupts_never_reach_caller [] 2 w r w1 E).
Defined.

Lemma missing_resolver_setting_raises_witness :
  let l := Locals (VBool false) (VBool false) (VStr "{artists} - {title}.{output-ext}") in
  let w := demo_world (delete "album_type" demo_settings) [] in
  let url := "https://open.spotify.com/album/xyz" in
  (∃ k, k ∈ resolver_settings ∧ settings w !! k = None)
  ∧ ∃ k, k ∈ resolver_settings
         ∧ settings w !! k = None
         ∧ process_album l url w
           = (Raise (KeyError k),
              World (settings w) (download_song_to_file w) (stdin w)
                    (trace w ++ [LogInfo ("Processing album: " +:+ url)])).
Proof.
  intros l w url.
  assert (Hmiss : ∃ k, k ∈ resolver_settings ∧ settings w !! k = None).
  { exists "album_type". split; [|reflexivity].
    unfold resolver_settings. rewrite !elem_of_cons. tauto. }
  split; [exact Hmiss|].
  exact (missing_resolver_setting_raises l url w Hmiss).
Defined.

Lemma missing_output_raises_at_once_witness :
  let w := demo_world (delete "output" demo_settings) [Line "exit"] in
  settings w !! "output" = None
  ∧ pconsole [] 1 w = Some (Raise (KeyError "output"), w).
Proof.
  intros w. split; [reflexivity|].
  exact (missing_output_raises_at_once [] 1 w eq_refl).
Defined.

Lemma session_leaves_other_settings_witness :
  let w := demo_world
             (<["structured" := VBool true]>
                (<["replace_spaces" := VBool true]> demo_settings))
             [Line "https://open.spotify.com/album/gone"] in
  ∃ r w1,
    is_Some (settings w !! "output")
    ∧ pconsole [] 1 w = Some (r, w1)
    ∧ (∀ key, key ≠ "space_replacer" → settings w1 !! key = settings w !! key)
    ∧ (settings w !! "space_replacer" = None → settings w1 = settings w).
Proof.
  intros w.
  destruct (pconsole [] 1 w) as [[r w1]|] eqn:E; [|vm_compute in E; discriminate].
  exists r, w1.
  assert (Hout : is_Some (settings w !! "output")).
  { eexists. vm_compute. reflexivity. }
  split; [exact Hout|]. split; [reflexivity|].
  exact (session_leaves_other_settings [] 1 w r w1 Hout E).
Defined.

Lemma flags_default_off_witness :
  let w := demo_world demo_settings [] in
  settings w !! "output" = Some (VStr "{artists} - {title}.{output-ext}")
  ∧ settings w !! "structured" = None
  ∧ settings w !! "replace_spaces" = None
  ∧ setup w
    = (Ok (Locals (VBool false) (VBool false)
             (VStr "{artists} - {title}.{output-ext}")),
       World (settings w) (download_song_to_file w) (stdin w)
         (trace w
          ++ [PrintLine "Welcome to spotDL pconsole. Enter Spotify URLs to download (Ctrl+D to exit).";
              PrintLine "Currently supporting album links only.";
              PrintLine "Type 'help' to see available commands."])).
Proof.
  intros w. split; [reflexivity|]. split; [reflexivity|]. split; [reflexivity|].
  exact (flags_default_off w _ eq_refl eq_refl eq_refl).
Defined.

(** A playlist link whose query holds the word [album] passes the link
    test. *)
Example playlist_link_with_album_word :
  is_album_link "https://open.spotify.com/playlist/xyz?from=album" = true.
Proof. reflexivity. Qed.
